(** * qPCR analysis toolkit: the correction procedures and the Ct pipeline

    A shallow embedding of [src/statistical_analysis.py] (class
    [qPCRStatistics]) and [src/qpcr_analyzer.py] (class [qPCRAnalyzer]).

    Numbers.  The Python code computes in binary64.  The embedding reads
    every finite float as the number it denotes and every arithmetic
    operation as the exact one: p-values are rationals ([Q], so that the
    correction procedures still run inside Rocq), Ct values are reals
    ([R], because the pipeline takes a square root and a power of two),
    and NaN is [None] in the Ct pipeline, where the code produces and
    receives it; p-values are finite.  The exact operations leave out the
    rounding of binary64.  Module [Binary64] runs the places where a last
    digit decides (the quotient of [_fdr_correction], the mean and the
    standard deviation of a group) on binary64 itself.  The theorems
    about corrected p-values, means and fold changes are stated with the
    rounding in mind: they compare values whose order rounding to nearest
    keeps, or values that the operations compute exactly.  Overflow and
    underflow are outside the model. *)

From Stdlib Require Import QArith Qminmax Qabs Reals Psatz Ascii String.
From Stdlib Require PrimFloat.
From stdpp Require Import gmap strings list sorting.

#[local] Instance Q_inhabited : Inhabited Q := populate 0%Q.

(** Python exceptions that the modelled methods raise.  A [KeyError]
    carries the name of the column or key that was not found. *)
Inductive exception :=
  | ValueError (msg : string)
  | KeyError (key : string)
  | TypeError (msg : string).

Inductive result (A : Type) :=
  | Ok (a : A)
  | Raise (e : exception).
Arguments Ok {A} a.
Arguments Raise {A} e.

Definition bind {A B} (r : result A) (k : A -> result B) : result B :=
  match r with
  | Ok a => k a
  | Raise e => Raise e
  end.

(** [for i in range(a, b)] with a loop body that rebinds one variable. *)
Definition for_range {S} (a b : nat) (body : nat -> S -> S) (s : S) : S :=
  foldl (fun s i => body i s) s (seq a (b - a)).

(** [for i in range(n-1, -1, -1)]. *)
Definition for_range_down {S} (n : nat) (body : nat -> S -> S) (s : S) : S :=
  foldl (fun s i => body i s) s (reverse (seq 0 n)).

(** * statistical_analysis.py *)

Module Stats.

(** ** numpy *)

(** [np.argsort(p_values)]: the indices that put [p_values] in ascending
    order.  numpy's default sort promises no order among equal keys; the
    embedding is the insertion sort, which keeps equal keys in input
    order.  Section [any_sort_order] below shows that the order of ties
    does not change what is proved for p-values that are not negative. *)
Fixpoint insert_index (p : list Q) (i : nat) (l : list nat) : list nat :=
  match l with
  | [] => [i]
  | j :: l' =>
      if Qle_bool (p !!! i) (p !!! j) then i :: j :: l'
      else j :: insert_index p i l'
  end.

Definition argsort (p : list Q) : list nat :=
  foldr (insert_index p) [] (seq 0 (length p)).

(** [a[idx]] for an index array [idx]. *)
Definition take_indices (a : list Q) (idx : list nat) : list Q :=
  (fun i => a !!! i) <$> idx.

(** [np.zeros_like(a)]. *)
Definition zeros_like (a : list Q) : list Q := replicate (length a) 0%Q.

Definition Qltb (x y : Q) : bool := negb (Qle_bool y x).

(** ** _holm_correction *)

(** First loop: [corrected_p[sorted_indices[i]] = min(1.0, p * (n - i))]
    for [i, p] in [enumerate(sorted_p)]. *)
Definition holm_assign (sorted_indices : list nat) (sorted_p : list Q)
    (n : nat) (corrected_p : list Q) : list Q :=
  foldl (fun c ip =>
           <[sorted_indices !!! ip.1 :=
               Qmin 1 (ip.2 * inject_Z (Z.of_nat n - Z.of_nat ip.1))]> c)
        corrected_p (imap pair sorted_p).

(** Second loop, "Ensure monotonicity": for [i] in [range(1, n)],
    [corrected_p[idx] = max(corrected_p[idx], corrected_p[prev_idx])]. *)
Definition holm_monotone (sorted_indices : list nat) (n : nat)
    (corrected_p : list Q) : list Q :=
  for_range 1 n (fun i c =>
    let idx := sorted_indices !!! i in
    let prev_idx := sorted_indices !!! (i - 1) in
    <[idx := Qmax (c !!! idx) (c !!! prev_idx)]> c) corrected_p.

Definition _holm_correction (p_values : list Q) : list Q :=
  let sorted_indices := argsort p_values in
  let sorted_p := take_indices p_values sorted_indices in
  let n := length p_values in
  let corrected_p := zeros_like p_values in
  let corrected_p := holm_assign sorted_indices sorted_p n corrected_p in
  let corrected_p := holm_monotone sorted_indices n corrected_p in
  corrected_p.

(** ** _fdr_correction *)

(** The loop [for i in range(n-1, -1, -1)].  The product and the quotient
    are exact here; [Binary64.fdr_loop] rounds them as the program does. *)
Definition fdr_loop (sorted_indices : list nat) (sorted_p : list Q)
    (n : nat) (corrected_p : list Q) : list Q :=
  for_range_down n (fun i c =>
    let c := <[sorted_indices !!! i :=
                 Qmin 1 (sorted_p !!! i * inject_Z (Z.of_nat n)
                         / inject_Z (Z.of_nat i + 1))]> c in
    if bool_decide (Z.of_nat i < Z.of_nat n - 1)%Z
    then <[sorted_indices !!! i :=
             Qmin (c !!! (sorted_indices !!! i))
                  (c !!! (sorted_indices !!! (i + 1)))]> c
    else c) corrected_p.

Definition _fdr_correction (p_values : list Q) : list Q :=
  let sorted_indices := argsort p_values in
  let sorted_p := take_indices p_values sorted_indices in
  let n := length p_values in
  let corrected_p := zeros_like p_values in
  fdr_loop sorted_indices sorted_p n corrected_p.

(** The Bonferroni branch of [apply_multiple_comparison_correction]:
    [np.minimum(p_values * len(p_values), 1.0)]. *)
Definition bonferroni (p_values : list Q) : list Q :=
  let corrected_p :=
    (fun p => p * inject_Z (Z.of_nat (length p_values)))%Q <$> p_values in
  (fun c => Qmin c 1) <$> corrected_p.

(** The [if method == ...] chain of
    [apply_multiple_comparison_correction]. *)
Definition corrected_for (method : string) (p_values : list Q)
    : result (list Q) :=
  if String.eqb method "bonferroni" then Ok (bonferroni p_values)
  else if String.eqb method "holm" then Ok (_holm_correction p_values)
  else if String.eqb method "fdr_bh" then Ok (_fdr_correction p_values)
  else Raise (ValueError "method must be 'bonferroni', 'holm', or 'fdr_bh'").

(** ** pandas tables and the object store *)

(** A column of a [DataFrame] with its dtype.  A [Float64] column holds
    finite values only. *)
Inductive column :=
  | Float64 (values : list Q)
  | Bool (values : list bool)
  | Object (values : list string)
  | Int64 (values : list Z).

(** A [DataFrame]: its columns by name, in column order. *)
Definition DataFrame := list (string * column).

(** [df[name]]. *)
Fixpoint getitem (df : DataFrame) (name : string) : result column :=
  match df with
  | [] => Raise (KeyError name)
  | (name', col) :: df' =>
      if String.eqb name' name then Ok col else getitem df' name
  end.

(** [df[name] = col]: replaces the column of that name, or appends it. *)
Fixpoint setitem (df : DataFrame) (name : string) (col : column)
    : DataFrame :=
  match df with
  | [] => [(name, col)]
  | (name', col') :: df' =>
      if String.eqb name' name then (name, col) :: df'
      else (name', col') :: setitem df' name col
  end.

(** [str.upper()] on ASCII letters. *)
Definition upper_ascii (c : ascii) : ascii :=
  let n := nat_of_ascii c in
  if (97 <=? n) && (n <=? 122) then ascii_of_nat (n - 32) else c.

Fixpoint upper (s : string) : string :=
  match s with
  | EmptyString => EmptyString
  | String c s' => String (upper_ascii c) (upper s')
  end.

(** Python names refer to objects.  [ref] is the address of a
    [DataFrame] in the store; [self.results] maps keys to references, so
    that two names for one table and a copy of a table are told apart. *)
Definition ref := nat.

Record qPCRStatistics := {
  alpha : Q;
  results : gmap string ref;
}.

Record state := {
  heap : list DataFrame;
  self : qPCRStatistics;
}.

(** [df.copy()]: a new object with the same contents.  A reference held
    by the program always points into the store. *)
Definition copy (h : list DataFrame) (r : ref) : list DataFrame * ref :=
  (h ++ [h !!! r], length h).

(** [apply_multiple_comparison_correction(self, method)]; the value
    returned is the reference [data].  A [P_Value] column of a dtype other
    than float64 is outside the model. *)
Definition apply_multiple_comparison_correction (method : string)
    (st : state) : result (state * ref) :=
  match results (self st) !! "ttest" with
  | None =>
      Raise (ValueError "No t-test results found. Run perform_ttest() first.")
  | Some ttest =>
      let '(h, data) := copy (heap st) ttest in
      bind (getitem (h !!! data) "P_Value") (fun col =>
      match col with
      | Float64 p_values =>
          bind (corrected_for method p_values) (fun corrected_p =>
          let h := <[data := setitem (h !!! data)
                               ("P_Value_" +:+ upper method)
                               (Float64 corrected_p)]> h in
          let h := <[data := setitem (h !!! data)
                               ("Significant_" +:+ upper method)
                               (Bool ((fun c => Qltb c (alpha (self st)))
                                        <$> corrected_p))]> h in
          let self' := {| alpha := alpha (self st);
                          results := <["ttest_" +:+ method := data]>
                                       (results (self st)) |} in
          Ok ({| heap := h; self := self' |}, data))
      | _ => Raise (TypeError "P_Value is not a float64 column")
      end)
  end.

(** Four raw p-values, two of them tied. *)
Definition p_example : list Q := [0.04; 0.01; 0.03; 0.01]%Q.

(** An index order that sorts them with the tied rows 1 and 3 in the
    order [argsort] does not give. *)
Definition ties_swapped : list nat := [3; 1; 2; 0].

(** Some columns of a run with two comparisons. *)
Definition ttest_example : DataFrame :=
  [ ("Gene", Object ["IL6"; "TNF"]);
    ("Comparison", Object ["Treated vs Control"; "Treated vs Control"]);
    ("P_Value", Float64 [0.01; 0.04]%Q);
    ("Significant", Bool [true; true]) ].

Definition state_example : state :=
  {| heap := [ttest_example];
     self := {| alpha := 0.05%Q; results := {[ "ttest" := 0 ]} |} |}.

(** ** _interpret_effect_size *)

(** [_interpret_effect_size(cohens_d)]; [None] is NaN ([pd.isna]). *)
Definition _interpret_effect_size (cohens_d : option Q) : string :=
  match cohens_d with
  | None => "Unknown"
  | Some d =>
      let abs_d := Qabs d in
      if Qltb abs_d 0.2 then "Negligible"
      else if Qltb abs_d 0.5 then "Small"
      else if Qltb abs_d 0.8 then "Medium"
      else "Large"
  end.

End Stats.

(** * qpcr_analyzer.py *)

Module Analyzer.

(** ** Floats and pandas reductions *)

(** A float64 cell: a real number, or NaN. *)
Definition float := option R.

(** [pd.notna(x)]. *)
Definition notna (x : float) : bool :=
  match x with Some _ => true | None => false end.

(** [x - y] and [-x]: NaN propagates. *)
Definition fsub (x y : float) : float :=
  match x, y with
  | Some a, Some b => Some (a - b)%R
  | _, _ => None
  end.

Definition fneg (x : float) : float := option_map Ropp x.

(** [2 ** x], as the exact power; the float power agrees with it up to
    rounding, so that only its sign and its order (not strict) carry
    over. *)
Definition pow2 (x : float) : float := option_map (Rpower 2) x.

(** The entries of a series that are not NaN; the pandas reductions skip
    the others. *)
Definition dropna (xs : list float) : list R :=
  omap (fun x : option R => x) xs.

Definition total (v : list R) : R := foldr Rplus 0%R v.

(** [Series.mean()]: NaN when nothing is left to average.  The sum and
    the quotient are exact here; [Binary64.mean] rounds them as pandas
    does. *)
Definition mean (xs : list float) : float :=
  let v := dropna xs in
  match v with
  | [] => None
  | _ => Some (total v / INR (length v))%R
  end.

(** [Series.std()], the sample standard deviation (ddof = 1): NaN with
    fewer than two values. *)
Definition std (xs : list float) : float :=
  let v := dropna xs in
  if decide (length v < 2) then None
  else
    let m := (total v / INR (length v))%R in
    Some (sqrt (total ((fun x => (x - m) * (x - m))%R <$> v)
                / (INR (length v) - 1)))%R.

(** [Series.count()]. *)
Definition count (xs : list float) : nat := length (dropna xs).

(** [Series.unique()]: the distinct values in order of first
    appearance. *)
Definition unique `{EqDecision A} (l : list A) : list A :=
  reverse (remove_dups (reverse l)).

(** ** Tables *)

(** One reaction.  The identifier columns hold strings. *)
Record Measurement := {
  Sample_ID : string;
  Gene : string;
  Condition : string;
  Biological_Rep : string;
  Ct_Value : float;
}.

(** The loaded table: its header and its rows.  A field of a row whose
    column is not in the header is never read. *)
Record RawData := {
  columns : list string;
  rows : list Measurement;
}.

(** A row of [processed_data]. *)
Record ReplicateMean := {
  rm_Sample_ID : string;
  rm_Gene : string;
  rm_Condition : string;
  rm_Biological_Rep : string;
  Ct_Mean : float;
  Ct_Std : float;
  Tech_Rep_Count : nat;
}.

(** A row of [delta_ct_data]. *)
Record DeltaCt := {
  dc_Sample_ID : string;
  dc_Condition : string;
  dc_Biological_Rep : string;
  dc_Target_Gene : string;
  Reference_Gene : string;
  Target_Ct : float;
  Reference_Ct : float;
  Delta_Ct : float;
}.

(** A row of [delta_delta_ct_data]. *)
Record DeltaDeltaCt := {
  ddc_Sample_ID : string;
  ddc_Condition : string;
  ddc_Biological_Rep : string;
  ddc_Target_Gene : string;
  ddc_Delta_Ct : float;
  Control_Mean_Delta_Ct : float;
  Delta_Delta_Ct : float;
  Fold_Change : float;
}.

Record qPCRAnalyzer := {
  reference_gene : string;
  control_condition : string;
  raw_data : option RawData;
  processed_data : option (list ReplicateMean);
  delta_ct_data : option (list DeltaCt);
  delta_delta_ct_data : option (list DeltaDeltaCt);
}.

Definition set_processed_data (v : list ReplicateMean) (a : qPCRAnalyzer)
    : qPCRAnalyzer :=
  {| reference_gene := reference_gene a;
     control_condition := control_condition a;
     raw_data := raw_data a;
     processed_data := Some v;
     delta_ct_data := delta_ct_data a;
     delta_delta_ct_data := delta_delta_ct_data a |}.

Definition set_delta_ct_data (v : list DeltaCt) (a : qPCRAnalyzer)
    : qPCRAnalyzer :=
  {| reference_gene := reference_gene a;
     control_condition := control_condition a;
     raw_data := raw_data a;
     processed_data := processed_data a;
     delta_ct_data := Some v;
     delta_delta_ct_data := delta_delta_ct_data a |}.

Definition set_delta_delta_ct_data (v : list DeltaDeltaCt)
    (a : qPCRAnalyzer) : qPCRAnalyzer :=
  {| reference_gene := reference_gene a;
     control_condition := control_condition a;
     raw_data := raw_data a;
     processed_data := processed_data a;
     delta_ct_data := delta_ct_data a;
     delta_delta_ct_data := Some v |}.

(** ** Sorted group keys *)

Definition lex (c1 c2 : comparison) : comparison :=
  match c1 with Eq => c2 | _ => c1 end.

Definition key : Type := string * string * string * string.

Definition key_compare (a b : key) : comparison :=
  let '(a1, a2, a3, a4) := a in
  let '(b1, b2, b3, b4) := b in
  lex (String.compare a1 b1)
      (lex (String.compare a2 b2)
           (lex (String.compare a3 b3) (String.compare a4 b4))).

Definition key_le (a b : key) : Prop := key_compare a b <> Gt.

#[local] Instance key_le_dec a b : Decision (key_le a b).
Proof. unfold key_le. apply _. Defined.

Definition index : Type := string * string * string.

Definition index_compare (a b : index) : comparison :=
  let '(a1, a2, a3) := a in
  let '(b1, b2, b3) := b in
  lex (String.compare a1 b1)
      (lex (String.compare a2 b2) (String.compare a3 b3)).

Definition index_le (a b : index) : Prop := index_compare a b <> Gt.

#[local] Instance index_le_dec a b : Decision (index_le a b).
Proof. unfold index_le. apply _. Defined.

Definition string_le (a b : string) : Prop := String.compare a b <> Gt.

#[local] Instance string_le_dec a b : Decision (string_le a b).
Proof. unfold string_le. apply _. Defined.

(** The distinct keys of a grouping, sorted as [groupby] and
    [pivot_table] present them. *)
Definition sorted_keys {A} `{EqDecision A} (le : relation A)
    `{forall a b, Decision (le a b)} (l : list A) : list A :=
  merge_sort le (remove_dups l).

(** ** validate_data *)

(** The three warnings, by what they report. *)
Inductive warning :=
  | reference_gene_not_found (gene : string)
  | control_condition_not_found (condition : string)
  | invalid_ct_values (n : nat).

Record validation_results := {
  valid : bool;
  missing_columns : list string;
  warnings : list warning;
}.

(** [repr] of a list of strings, as the f-string prints it. *)
Definition repr_list (l : list string) : string :=
  "[" +:+ String.concat ", " ((fun s => "'" +:+ s +:+ "'") <$> l) +:+ "]".

(** [isna | (ct <= 0) | (ct > 40)]. *)
Definition invalid_ct (ct : float) : bool :=
  match ct with
  | None => true
  | Some x =>
      (if Rle_dec x 0 then true else false)
      || (if Rgt_dec x 40 then true else false)
  end.

Definition validate_data (self : qPCRAnalyzer) : result validation_results :=
  match raw_data self with
  | None => Raise (ValueError "No data loaded. Please run load_data() first.")
  | Some raw =>
      let required_columns := ["Sample_ID"; "Gene"; "Condition"; "Ct_Value"] in
      let missing_columns :=
        filter (fun col => col ∉ columns raw) required_columns in
      let valid := bool_decide (length missing_columns = 0) in
      if negb valid
      then Raise (ValueError ("Missing required columns: "
                              +:+ repr_list missing_columns))
      else
        let w1 :=
          if decide (reference_gene self ∈ Gene <$> rows raw) then []
          else [reference_gene_not_found (reference_gene self)] in
        let w2 :=
          if decide (control_condition self ∈ Condition <$> rows raw) then []
          else [control_condition_not_found (control_condition self)] in
        let invalid := filter (fun m => invalid_ct (Ct_Value m)) (rows raw) in
        let w3 :=
          match invalid with
          | [] => []
          | _ => [invalid_ct_values (length invalid)]
          end in
        Ok {| valid := valid; missing_columns := missing_columns;
              warnings := w1 ++ w2 ++ w3 |}
  end.

(** ** calculate_technical_replicates_mean *)

(** Selecting columns by name: pandas raises [KeyError] on the first name
    that is not a column of the table. *)
Definition select_columns (names available : list string) : result unit :=
  match list_find (fun col => col ∉ available) names with
  | Some (_, col) => Raise (KeyError col)
  | None => Ok tt
  end.

Definition key_of (m : Measurement) : key :=
  (Sample_ID m, Gene m, Condition m, Biological_Rep m).

(** [groupby(grouping_columns).agg({'Ct_Value': ['mean', 'std', 'count']})
    .reset_index()]: one row per key, keys sorted. *)
Definition groupby_agg (data : list Measurement) : list ReplicateMean :=
  (fun k : key =>
     let '(sample, gene, condition, rep) := k in
     let ct := Ct_Value <$> filter (fun m => key_of m = k) data in
     {| rm_Sample_ID := sample; rm_Gene := gene; rm_Condition := condition;
        rm_Biological_Rep := rep;
        Ct_Mean := mean ct; Ct_Std := std ct; Tech_Rep_Count := count ct |})
  <$> sorted_keys key_le (key_of <$> data).

Definition calculate_technical_replicates_mean (self : qPCRAnalyzer)
    : result (qPCRAnalyzer * list ReplicateMean) :=
  match raw_data self with
  | None => Raise (ValueError "No data loaded. Please run load_data() first.")
  | Some raw =>
      let grouping_columns :=
        ["Sample_ID"; "Gene"; "Condition"; "Biological_Rep"] in
      bind (select_columns grouping_columns (columns raw)) (fun _ =>
      bind (select_columns ["Ct_Value"] (columns raw)) (fun _ =>
      let processed := groupby_agg (rows raw) in
      Ok (set_processed_data processed self, processed)))
  end.

(** ** calculate_delta_ct *)

Definition index_of (r : ReplicateMean) : index :=
  (rm_Sample_ID r, rm_Condition r, rm_Biological_Rep r).

(** One cell of the pivot table: the mean of [Ct_Mean] over the rows of
    that index and gene, NaN when there is none. *)
Definition pivot_cell (data : list ReplicateMean) (i : index)
    (gene : string) : float :=
  mean (Ct_Mean <$>
          filter (fun r => index_of r = i /\ rm_Gene r = gene) data).

(** [pivot_table] leaves out the (index, gene) pairs whose mean is NaN;
    an index row and a gene column exist when one of their cells is
    left. *)
Definition pivot_entries (data : list ReplicateMean)
    : list (index * string) :=
  filter (fun e => notna (pivot_cell data e.1 e.2) = true)
         (remove_dups ((fun r => (index_of r, rm_Gene r)) <$> data)).

(** [calculate_delta_ct].  A reference gene named like one of the index
    columns is outside the model. *)
Definition calculate_delta_ct (self : qPCRAnalyzer)
    : result (qPCRAnalyzer * list DeltaCt) :=
  bind (match processed_data self with
        | None => bind (calculate_technical_replicates_mean self)
                       (fun r => Ok r.1)
        | Some _ => Ok self
        end) (fun self =>
  let data := default [] (processed_data self) in
  let entries := pivot_entries data in
  let pivot_index := sorted_keys index_le (fst <$> entries) in
  let genes := sorted_keys string_le (snd <$> entries) in
  if decide (reference_gene self ∈ genes) then
    let target_genes :=
      filter (fun col => col ∉ ["Sample_ID"; "Condition"; "Biological_Rep";
                                 reference_gene self]) genes in
    let delta_ct_results :=
      flat_map (fun row : index =>
        let reference_ct := pivot_cell data row (reference_gene self) in
        flat_map (fun target_gene =>
          let target_ct := pivot_cell data row target_gene in
          if notna reference_ct && notna target_ct then
            let delta_ct := fsub target_ct reference_ct in
            [ {| dc_Sample_ID := row.1.1; dc_Condition := row.1.2;
                 dc_Biological_Rep := row.2;
                 dc_Target_Gene := target_gene;
                 Reference_Gene := reference_gene self;
                 Target_Ct := target_ct; Reference_Ct := reference_ct;
                 Delta_Ct := delta_ct |} ]
          else []) target_genes) pivot_index in
    Ok (set_delta_ct_data delta_ct_results self, delta_ct_results)
  else
    Raise (ValueError ("Reference gene '" +:+ reference_gene self
                       +:+ "' not found in data"))).

(** ** calculate_delta_delta_ct *)

(** [groupby('Target_Gene')['Delta_Ct'].mean().to_dict()] over the rows
    of the control condition. *)
Definition control_means (control_rows : list DeltaCt) : gmap string float :=
  list_to_map
    ((fun gene =>
        (gene, mean (Delta_Ct <$>
                       filter (fun r => dc_Target_Gene r = gene) control_rows)))
     <$> unique (dc_Target_Gene <$> control_rows)).

(** The body of the inner loop: one output row. *)
Definition delta_delta_ct_row (control_mean_delta_ct : float) (row : DeltaCt)
    : DeltaDeltaCt :=
  let delta_delta_ct := fsub (Delta_Ct row) control_mean_delta_ct in
  let fold_change :=
    if notna delta_delta_ct then pow2 (fneg delta_delta_ct) else None in
  {| ddc_Sample_ID := dc_Sample_ID row;
     ddc_Condition := dc_Condition row;
     ddc_Biological_Rep := dc_Biological_Rep row;
     ddc_Target_Gene := dc_Target_Gene row;
     ddc_Delta_Ct := Delta_Ct row;
     Control_Mean_Delta_Ct := control_mean_delta_ct;
     Delta_Delta_Ct := delta_delta_ct;
     Fold_Change := fold_change |}.

(** The nested loops over [Target_Gene].unique() and the rows of each
    gene. *)
Definition delta_delta_ct_results (control_delta_ct : gmap string float)
    (data : list DeltaCt) : list DeltaDeltaCt :=
  flat_map (fun target_gene =>
    let gene_data := filter (fun r => dc_Target_Gene r = target_gene) data in
    let control_mean_delta_ct :=
      default None (control_delta_ct !! target_gene) in
    delta_delta_ct_row control_mean_delta_ct <$> gene_data)
    (unique (dc_Target_Gene <$> data)).

(** [calculate_delta_delta_ct].  A [DataFrame] built from an empty list
    of records has no columns, so selecting ['Condition'] fails on it. *)
Definition calculate_delta_delta_ct (self : qPCRAnalyzer)
    : result (qPCRAnalyzer * list DeltaDeltaCt) :=
  bind (match delta_ct_data self with
        | None => bind (calculate_delta_ct self) (fun r => Ok r.1)
        | Some _ => Ok self
        end) (fun self =>
  let data := default [] (delta_ct_data self) in
  match data with
  | [] => Raise (KeyError "Condition")
  | _ =>
      let control_delta_ct :=
        control_means
          (filter (fun r => dc_Condition r = control_condition self) data) in
      let results := delta_delta_ct_results control_delta_ct data in
      Ok (set_delta_delta_ct_data results self, results)
  end).

(** ** Example tables *)

Definition all_columns : list string :=
  ["Sample_ID"; "Gene"; "Condition"; "Biological_Rep"; "Technical_Rep";
   "Ct_Value"].

Definition measurement (sample gene condition rep : string) (ct : R)
    : Measurement :=
  {| Sample_ID := sample; Gene := gene; Condition := condition;
     Biological_Rep := rep; Ct_Value := Some ct |}.

Definition analyzer_of (raw : RawData) : qPCRAnalyzer :=
  {| reference_gene := "GAPDH"; control_condition := "Control";
     raw_data := Some raw; processed_data := None;
     delta_ct_data := None; delta_delta_ct_data := None |}.

(** One sample, one gene, a single technical replicate. *)
Definition single_replicate : qPCRAnalyzer :=
  analyzer_of {| columns := all_columns;
                 rows := [measurement "S1" "IL6" "Control" "1" 22] |}.

(** The same group with two technical replicates of equal Ct. *)
Definition two_replicates : qPCRAnalyzer :=
  analyzer_of {| columns := all_columns;
                 rows := [measurement "S1" "IL6" "Control" "1" 22;
                          measurement "S1" "IL6" "Control" "1" 22] |}.

(** A table that lacks the [Biological_Rep] column. *)
Definition no_biological_rep : qPCRAnalyzer :=
  analyzer_of {| columns := ["Sample_ID"; "Gene"; "Condition"; "Ct_Value"];
                 rows := [measurement "S1" "IL6" "Control" "" 22] |}.

(** Delta-Ct tables for the examples: IL6 is measured under the control
    condition, TNF is not. *)
Definition delta_ct_row (sample condition rep gene : string)
    (target reference : R) : DeltaCt :=
  {| dc_Sample_ID := sample; dc_Condition := condition;
     dc_Biological_Rep := rep; dc_Target_Gene := gene;
     Reference_Gene := "GAPDH";
     Target_Ct := Some target; Reference_Ct := Some reference;
     Delta_Ct := Some (target - reference)%R |}.

Definition tnf_without_control_rows : list DeltaCt :=
  [ delta_ct_row "S1" "Control" "1" "IL6" 22 18;
    delta_ct_row "S2" "Treated" "1" "IL6" 20 18;
    delta_ct_row "S2" "Treated" "1" "TNF" 25 18 ].

Definition tnf_without_control : qPCRAnalyzer :=
  {| reference_gene := "GAPDH"; control_condition := "Control";
     raw_data := None; processed_data := None;
     delta_ct_data := Some tnf_without_control_rows;
     delta_delta_ct_data := None |}.

(** ** Names for parts of the tables *)

(** The grouping key that a row of [processed_data] carries. *)
Definition row_key (r : ReplicateMean) : key :=
  (rm_Sample_ID r, rm_Gene r, rm_Condition r, rm_Biological_Rep r).

(** The Ct values of the measurements of one group. *)
Definition group_ct (data : list Measurement) (k : key) : list float :=
  Ct_Value <$> filter (fun m => key_of m = k) data.

(** The measurements of one group whose Ct is not NaN. *)
Definition group_valid (data : list Measurement) (k : key)
    : list Measurement :=
  filter (fun m => key_of m = k /\ is_Some (Ct_Value m)) data.

(** The index of the pivot table that a row of [delta_ct_data] carries. *)
Definition dc_index (d : DeltaCt) : index :=
  (dc_Sample_ID d, dc_Condition d, dc_Biological_Rep d).

(** ** Example analyzers with averaged data *)

Definition replicate_mean (sample gene condition rep : string) (ct : R)
    : ReplicateMean :=
  {| rm_Sample_ID := sample; rm_Gene := gene; rm_Condition := condition;
     rm_Biological_Rep := rep;
     Ct_Mean := Some ct; Ct_Std := None; Tech_Rep_Count := 1 |}.

Definition averaged (data : list ReplicateMean) : qPCRAnalyzer :=
  {| reference_gene := "GAPDH"; control_condition := "Control";
     raw_data := None; processed_data := Some data;
     delta_ct_data := None; delta_delta_ct_data := None |}.

(** One sample with the reference gene and one target gene. *)
Definition il6_and_gapdh_rows : list ReplicateMean :=
  [ replicate_mean "S1" "GAPDH" "Control" "1" 18;
    replicate_mean "S1" "IL6" "Control" "1" 22 ].

Definition il6_and_gapdh : qPCRAnalyzer := averaged il6_and_gapdh_rows.

(** One sample with the reference gene only. *)
Definition gapdh_only_rows : list ReplicateMean :=
  [ replicate_mean "S1" "GAPDH" "Control" "1" 18 ].

Definition gapdh_only : qPCRAnalyzer := averaged gapdh_only_rows.

(** A raw table with the reference gene and one target gene, two
    technical replicates each. *)
Definition il6_and_gapdh_raw : RawData :=
  {| columns := all_columns;
     rows := [ measurement "S1" "GAPDH" "Control" "1" 18;
               measurement "S1" "GAPDH" "Control" "1" 19;
               measurement "S1" "IL6" "Control" "1" 22;
               measurement "S1" "IL6" "Control" "1" 23 ] |}.

(** An analyzer on which nothing has been loaded. *)
Definition fresh_analyzer : qPCRAnalyzer :=
  {| reference_gene := "GAPDH"; control_condition := "Control";
     raw_data := None; processed_data := None;
     delta_ct_data := None; delta_delta_ct_data := None |}.

End Analyzer.

(** * The rounding-sensitive arithmetic in binary64

    The places where the exact embedding and the program can differ in
    the last digit, on Rocq's primitive binary64 floats: every operation
    rounds to nearest, as the program's does. *)

Module Binary64.
Import PrimFloat.
#[local] Set Warnings "-inexact-float".
#[local] Open Scope float_scope.

#[export] Instance float_inhabited : Inhabited float := populate 0.

(** An integer operand of a float operation ([n], [i + 1], a count); the
    conversion is exact below [2^53]. *)
Fixpoint of_nat (n : nat) : float :=
  match n with
  | O => 0
  | S n => of_nat n + 1
  end.

(** Python's [min(a, b)]: [b] when [b < a], otherwise [a]. *)
Definition min (a b : float) : float := if b <? a then b else a.

(** ** _fdr_correction *)

(** [np.argsort], as in [Stats.argsort]. *)
Fixpoint insert_index (p : list float) (i : nat) (l : list nat) : list nat :=
  match l with
  | [] => [i]
  | j :: l' =>
      if p !!! i <=? p !!! j then i :: j :: l'
      else j :: insert_index p i l'
  end.

Definition argsort (p : list float) : list nat :=
  foldr (insert_index p) [] (seq 0 (length p)).

Definition take_indices (a : list float) (idx : list nat) : list float :=
  (fun i => a !!! i) <$> idx.

Definition zeros_like (a : list float) : list float :=
  replicate (length a) 0.

(** The loop [for i in range(n-1, -1, -1)]:
    [min(1.0, sorted_p[i] * n / (i + 1))], the product rounded and then
    the quotient. *)
Definition fdr_loop (sorted_indices : list nat) (sorted_p : list float)
    (n : nat) (corrected_p : list float) : list float :=
  for_range_down n (fun i c =>
    let c := <[sorted_indices !!! i :=
                 min 1 (sorted_p !!! i * of_nat n / of_nat (i + 1))]> c in
    if bool_decide (Z.of_nat i < Z.of_nat n - 1)%Z
    then <[sorted_indices !!! i :=
             min (c !!! (sorted_indices !!! i))
                 (c !!! (sorted_indices !!! (i + 1)%nat))]> c
    else c) corrected_p.

Definition _fdr_correction (p_values : list float) : list float :=
  let sorted_indices := argsort p_values in
  let sorted_p := take_indices p_values sorted_indices in
  let n := length p_values in
  let corrected_p := zeros_like p_values in
  fdr_loop sorted_indices sorted_p n corrected_p.


(** ** The mean and the standard deviation of a group

    What [groupby(...).agg({'Ct_Value': ['mean', 'std', 'count']})] runs
    on the values of a group that are not NaN. *)

(** The mean: the sum over the count.  pandas adds with Kahan's
    compensation, which corrects a rounding error in the next addition. *)
Definition mean_step (s : float * float) (val : float) : float * float :=
  let '(sumx, compensation) := s in
  let y := val - compensation in
  let t := sumx + y in
  let compensation := t - sumx - y in
  (t, compensation).

Definition mean (xs : list float) : float :=
  (foldl mean_step (0, 0) xs).1 / of_nat (length xs).

(** The same with the plain sum, rounded after each addition. *)
Definition plain_mean (xs : list float) : float :=
  foldl add 0 xs / of_nat (length xs).

(** The standard deviation (ddof = 1): pandas accumulates the squared
    deviations in one pass, against a running mean. *)
Definition var_step (s : nat * float * float) (val : float)
    : nat * float * float :=
  let '(nobs, mean, out) := s in
  let nobs := S nobs in
  let oldmean := mean in
  let mean := oldmean + (val - oldmean) / of_nat nobs in
  (nobs, mean, out + (val - mean) * (val - oldmean)).

Definition std (xs : list float) : float :=
  let '(nobs, _, out) := foldl var_step (O, 0, 0) xs in
  sqrt (out / of_nat (nobs - 1)).

(** Three technical replicates with the same Ct value. *)
Definition three_replicates : list float := [22.4; 22.4; 22.4].

End Binary64.

(** * The procedures as the specification words them *)

Module Spec.
Import Stats.

(** Ascending order of the raw p-values, exact ties broken by the
    original input index. *)
Definition before (p : list Q) (i j : nat) : Prop :=
  (p !!! i < p !!! j)%Q \/ ((p !!! i == p !!! j)%Q /\ i < j).



(** Holm: [min(1, p_(k) * (m - k))] at 0-indexed sorted rank [k]. *)
Definition holm_assigned (sorted : list Q) (m k : nat) : Q :=
  Qmin 1 (sorted !!! k * inject_Z (Z.of_nat m - Z.of_nat k)).

(** Sweep in increasing order of p: each value is floored by the
    corrected value of the previous rank. *)
Fixpoint floor_by_previous (assigned : nat -> Q) (k : nat) : Q :=
  match k with
  | 0 => assigned 0
  | S k' => Qmax (assigned (S k')) (floor_by_previous assigned k')
  end.


(** Benjamini-Hochberg: [min(1, p_(k) * m / (k+1))] at rank [k]. *)
Definition fdr_assigned (sorted : list Q) (m k : nat) : Q :=
  Qmin 1 (sorted !!! k * inject_Z (Z.of_nat m) / inject_Z (Z.of_nat k + 1)).

(** Sweep from the highest p down: each value is the minimum of itself
    and the corrected value at the next less significant rank; [d] counts
    the ranks that follow [k]. *)
Fixpoint cap_by_next_from (assigned : nat -> Q) (d k : nat) : Q :=
  match d with
  | 0 => assigned k
  | S d' => Qmin (assigned k) (cap_by_next_from assigned d' (S k))
  end.

Definition cap_by_next (assigned : nat -> Q) (m k : nat) : Q :=
  cap_by_next_from assigned (m - 1 - k) k.


(** "Augmented in place": the table stored under [key] has columns of
    these names. *)
Definition carries_columns (st : state) (key : string)
    (names : list string) : Prop :=
  exists r df,
    results (self st) !! key = Some r /\ heap st !! r = Some df /\
    forall name, name ∈ names -> exists col, getitem df name = Ok col.

(** The fatal missing-required-column error.  The code has one error of
    this kind, the ValueError of the column check of [validate_data],
    which lists the absent columns. *)
Definition SchemaError (e : exception) : Prop :=
  exists missing,
    e = ValueError ("Missing required columns: "
                    +:+ Analyzer.repr_list missing).

End Spec.

(** * Facts about the correction procedures *)

Module StatsFacts.
Import Stats.

(** ** Index arrays that are permutations of [0..n-1] *)

Section permutation.
Context (sigma : list nat) (n : nat).
Hypothesis Hsigma : sigma ≡ₚ seq 0 n.

Lemma perm_length : length sigma = n.
Proof. rewrite Hsigma. apply length_seq. Qed.

Lemma perm_NoDup : NoDup sigma.
Proof. rewrite Hsigma. apply NoDup_seq. Qed.

Lemma perm_bound k : k < n -> sigma !!! k < n.
Proof.
  intros Hk.
  assert (Hin : sigma !!! k ∈ sigma).
  { apply list_elem_of_lookup_total_2. rewrite perm_length. exact Hk. }
  apply (elem_of_Permutation_proper _ _ _ Hsigma), elem_of_seq in Hin. lia.
Qed.

Lemma perm_inj j k : j < n -> k < n -> sigma !!! j = sigma !!! k -> j = k.
Proof.
  intros Hj Hk Heq.
  apply (NoDup_lookup sigma j k (sigma !!! j) perm_NoDup).
  - apply list_lookup_lookup_total_lt. rewrite perm_length. exact Hj.
  - rewrite Heq. apply list_lookup_lookup_total_lt.
    rewrite perm_length. exact Hk.
Qed.

Lemma perm_surj i : i < n -> exists k, k < n /\ sigma !!! k = i.
Proof.
  intros Hi.
  assert (Hin : i ∈ sigma).
  { apply (elem_of_Permutation_proper _ _ _ Hsigma), elem_of_seq. lia. }
  apply list_elem_of_lookup_total_1 in Hin as (k & Hk & Hki).
  exists k. rewrite perm_length in Hk. auto.
Qed.

(** Writing through the index array at rank [k] is seen at rank [k]
    and at no other rank. *)
Lemma scatter_eq (c : list Q) k v :
  length c = n -> k < n -> <[sigma !!! k := v]> c !!! (sigma !!! k) = v.
Proof.
  intros Hc Hk. apply list_lookup_total_insert_eq.
  rewrite Hc. apply perm_bound, Hk.
Qed.

Lemma scatter_ne (c : list Q) j k v :
  j < n -> k < n -> j <> k ->
  <[sigma !!! k := v]> c !!! (sigma !!! j) = c !!! (sigma !!! j).
Proof.
  intros Hj Hk Hne. apply list_lookup_total_insert_ne.
  intros Heq. apply Hne. symmetry. apply perm_inj; auto.
Qed.


(** *** The loops of [_holm_correction], rank by rank *)

Lemma holm_assign_rank (sp c : list Q) :
  length c = n -> length sp <= n ->
  length (holm_assign sigma sp n c) = n /\
  forall k, k < length sp ->
    holm_assign sigma sp n c !!! (sigma !!! k) = Spec.holm_assigned sp n k.
Proof.
  intros Hc. unfold holm_assign.
  induction sp as [|x sp IH] using rev_ind; intros Hlen.
  - simpl. split; [exact Hc | intros k Hk; simpl in Hk; lia].
  - rewrite length_app in Hlen. simpl in Hlen.
    destruct IH as [IHlen IHk]; [lia|].
    rewrite imap_app, foldl_app. simpl. rewrite Nat.add_0_r.
    split; [rewrite length_insert; exact IHlen|].
    intros k Hk. rewrite length_app in Hk. simpl in Hk.
    unfold Spec.holm_assigned.
    destruct (decide (k = length sp)) as [->|Hne].
    + rewrite scatter_eq by (auto; lia).
      rewrite lookup_total_app_r by lia. rewrite Nat.sub_diag. reflexivity.
    + rewrite scatter_ne by lia.
      rewrite IHk by lia. unfold Spec.holm_assigned.
      rewrite lookup_total_app_l by lia. reflexivity.
Qed.

Lemma holm_monotone_prefix (c : list Q) m :
  length c = n -> m < n ->
  let c' := foldl (fun c i =>
              let idx := sigma !!! i in
              let prev_idx := sigma !!! (i - 1) in
              <[idx := Qmax (c !!! idx) (c !!! prev_idx)]> c) c (seq 1 m) in
  length c' = n /\
  (forall k, k <= m ->
     c' !!! (sigma !!! k)
     = Spec.floor_by_previous (fun j => c !!! (sigma !!! j)) k) /\
  (forall k, m < k -> k < n -> c' !!! (sigma !!! k) = c !!! (sigma !!! k)).
Proof.
  intros Hc. induction m as [|m IH]; intros Hm.
  - simpl. split; [exact Hc|]. split; [|reflexivity].
    intros k Hk. assert (k = 0) as -> by lia. reflexivity.
  - destruct IH as (IHlen & IHlow & IHhigh); [lia|].
    rewrite seq_S, foldl_app. cbn zeta in *.
    set (c' := foldl _ c (seq 1 m)) in *.
    cbn [foldl Nat.add]. replace (S m - 1) with m by lia.
    split; [rewrite length_insert; exact IHlen|]. split.
    + intros k Hk. destruct (decide (k = S m)) as [->|Hne].
      * rewrite scatter_eq by (auto; lia). simpl.
        rewrite IHhigh by lia. rewrite IHlow by lia. reflexivity.
      * rewrite scatter_ne by lia. apply IHlow. lia.
    + intros k Hk Hkn. rewrite scatter_ne by lia. apply IHhigh; lia.
Qed.

Lemma holm_monotone_rank (c : list Q) :
  length c = n ->
  length (holm_monotone sigma n c) = n /\
  forall k, k < n ->
    holm_monotone sigma n c !!! (sigma !!! k)
    = Spec.floor_by_previous (fun j => c !!! (sigma !!! j)) k.
Proof.
  intros Hc. unfold holm_monotone, for_range.
  destruct (decide (n = 0)) as [Hn|Hn].
  - split; [rewrite Hn; simpl; lia | intros k Hk; lia].
  - destruct (holm_monotone_prefix c (n - 1) Hc) as (Hlen & Hlow & _); [lia|].
    split; [exact Hlen|]. intros k Hk. apply Hlow. lia.
Qed.

(** *** The loop of [_fdr_correction], rank by rank *)

Lemma fdr_loop_suffix (sp c : list Q) d j :
  length c = n -> j + d = n ->
  let c' := foldl (fun c i =>
              let c := <[sigma !!! i :=
                           Qmin 1 (sp !!! i * inject_Z (Z.of_nat n)
                                   / inject_Z (Z.of_nat i + 1))]> c in
              if bool_decide (Z.of_nat i < Z.of_nat n - 1)%Z
              then <[sigma !!! i :=
                       Qmin (c !!! (sigma !!! i))
                            (c !!! (sigma !!! (i + 1)))]> c
              else c) c (reverse (seq j d)) in
  length c' = n /\
  forall k, j <= k -> k < n ->
    c' !!! (sigma !!! k)
    = Spec.cap_by_next (Spec.fdr_assigned sp n) n k.
Proof.
  intros Hc. revert j. induction d as [|d IH]; intros j Hjd.
  - simpl. split; [exact Hc | intros k ? ?; lia].
  - destruct (IH (S j)) as (IHlen & IHk); [lia|].
    cbn zeta in *. cbn [seq]. rewrite reverse_cons, foldl_app.
    set (c' := foldl _ c (reverse (seq (S j) d))) in *.
    cbn [foldl]. unfold Spec.cap_by_next in *.
    case_bool_decide as Hlast.
    + split; [rewrite !length_insert; exact IHlen|].
      intros k Hjk Hkn. destruct (decide (k = j)) as [->|Hne].
      * rewrite scatter_eq by (rewrite ?length_insert; auto; lia).
        rewrite scatter_eq by (auto; lia).
        rewrite scatter_ne by lia.
        replace (j + 1) with (S j) by lia. rewrite IHk by lia.
        replace (n - 1 - j) with (S (n - 1 - S j)) by lia.
        reflexivity.
      * rewrite !scatter_ne by (rewrite ?length_insert; auto; lia).
        apply IHk; lia.
    + split; [rewrite length_insert; exact IHlen|].
      intros k Hjk Hkn. assert (k = j) as -> by lia.
      rewrite scatter_eq by (auto; lia).
      replace (n - 1 - j) with 0 by lia. reflexivity.
Qed.

Lemma fdr_loop_rank (sp c : list Q) :
  length c = n ->
  length (fdr_loop sigma sp n c) = n /\
  forall k, k < n ->
    fdr_loop sigma sp n c !!! (sigma !!! k)
    = Spec.cap_by_next (Spec.fdr_assigned sp n) n k.
Proof.
  intros Hc. unfold fdr_loop, for_range_down.
  destruct (fdr_loop_suffix sp c n 0 Hc) as (Hlen & Hk); [lia|].
  split; [exact Hlen|]. intros k Hkn. apply Hk; lia.
Qed.


End permutation.


(** ** [argsort] sorts, and keeps ties in input order *)

Lemma insert_index_perm p i l : insert_index p i l ≡ₚ i :: l.
Proof.
  induction l as [|j l IH]; simpl; [reflexivity|].
  destruct (Qle_bool (p !!! i) (p !!! j)); [reflexivity|].
  rewrite IH. apply perm_swap.
Qed.

Lemma foldr_insert_index_perm p l : foldr (insert_index p) [] l ≡ₚ l.
Proof.
  induction l as [|i l IH]; simpl; [reflexivity|].
  rewrite insert_index_perm, IH. reflexivity.
Qed.

Lemma argsort_perm p : argsort p ≡ₚ seq 0 (length p).
Proof. apply foldr_insert_index_perm. Qed.

Lemma before_le p i j : Spec.before p i j -> (p !!! i <= p !!! j)%Q.
Proof. intros [H|[H _]]; [apply Qlt_le_weak, H | rewrite H; apply Qle_refl]. Qed.

Lemma le_before p i j :
  (p !!! i <= p !!! j)%Q -> i < j -> Spec.before p i j.
Proof.
  intros Hle Hij. destruct (Qlt_le_dec (p !!! i) (p !!! j)) as [Hlt|Hge].
  - left. exact Hlt.
  - right. split; [apply Qle_antisym; assumption | exact Hij].
Qed.

Lemma insert_index_sorted p i l :
  StronglySorted (Spec.before p) l -> Forall (fun j => i < j) l ->
  StronglySorted (Spec.before p) (insert_index p i l).
Proof.
  induction 1 as [|j l Hl IH Hj]; intros Hi; simpl.
  - repeat constructor.
  - apply Forall_cons in Hi as [Hij Hi].
    destruct (Qle_bool (p !!! i) (p !!! j)) eqn:Hcmp.
    + apply Qle_bool_iff in Hcmp.
      constructor; [constructor; assumption|].
      constructor; [apply le_before; assumption|].
      rewrite Forall_forall in Hj, Hi |- *. intros x Hx.
      apply le_before; [|apply Hi, Hx].
      eapply Qle_trans; [exact Hcmp | apply before_le, Hj, Hx].
    + assert (Hlt : (p !!! j < p !!! i)%Q).
      { apply Qnot_le_lt. intros Hle. apply Qle_bool_iff in Hle. congruence. }
      constructor; [apply IH, Hi|].
      rewrite Forall_forall in Hj |- *. intros x Hx.
      apply (proj1 (elem_of_Permutation_proper x _ _
                      (insert_index_perm p i l))) in Hx.
      apply elem_of_cons in Hx as [->|Hx]; [left; exact Hlt | apply Hj, Hx].
Qed.

Lemma foldr_insert_index_sorted p a m :
  StronglySorted (Spec.before p) (foldr (insert_index p) [] (seq a m)).
Proof.
  revert a. induction m as [|m IH]; intros a; simpl; [constructor|].
  apply insert_index_sorted; [apply IH|].
  rewrite Forall_forall. intros j Hj.
  apply (proj1 (elem_of_Permutation_proper j _ _
                  (foldr_insert_index_perm p (seq (S a) m)))) in Hj.
  apply elem_of_seq in Hj. lia.
Qed.

Lemma argsort_sorted p : StronglySorted (Spec.before p) (argsort p).
Proof. apply foldr_insert_index_sorted. Qed.

Lemma StronglySorted_lookup_lt {A} (R : relation A) l a b x y :
  StronglySorted R l -> l !! a = Some x -> l !! b = Some y -> a < b -> R x y.
Proof.
  intros Hl. revert a b. induction Hl as [|z l Hl IH Hz]; intros a b Ha Hb Hab.
  - rewrite lookup_nil in Ha. discriminate.
  - destruct b as [|b]; [lia|]. simpl in Hb. destruct a as [|a].
    + simpl in Ha. injection Ha as ->.
      rewrite Forall_forall in Hz. apply Hz. eapply list_elem_of_lookup_2, Hb.
    + simpl in Ha. apply (IH a b); [assumption..|lia].
Qed.

Lemma argsort_rank_before p a b :
  a < b -> b < length p -> Spec.before p (argsort p !!! a) (argsort p !!! b).
Proof.
  intros Hab Hb. pose proof (perm_length _ _ (argsort_perm p)) as Hlen.
  apply (StronglySorted_lookup_lt _ (argsort p) a b); [apply argsort_sorted|..|exact Hab];
    apply list_lookup_lookup_total_lt; lia.
Qed.

Lemma sorted_p_ascending p :
  StronglySorted Qle (take_indices p (argsort p)).
Proof.
  unfold take_indices. eapply StronglySorted_fmap; [|apply argsort_sorted].
  intros i j. apply before_le.
Qed.

(** ** The two sweeps *)

Lemma floor_by_previous_ext f g k :
  (forall j, j <= k -> f j = g j) ->
  Spec.floor_by_previous f k = Spec.floor_by_previous g k.
Proof.
  induction k as [|k IH]; intros Hfg; simpl.
  - apply Hfg. lia.
  - rewrite IH by (intros j Hj; apply Hfg; lia).
    rewrite (Hfg (S k)) by lia. reflexivity.
Qed.

Lemma floor_by_previous_step f k :
  (Spec.floor_by_previous f k <= Spec.floor_by_previous f (S k))%Q.
Proof. simpl. apply Q.le_max_r. Qed.

Lemma floor_by_previous_mono f a b :
  a <= b -> (Spec.floor_by_previous f a <= Spec.floor_by_previous f b)%Q.
Proof.
  induction 1 as [|b Hab IH]; [apply Qle_refl|].
  eapply Qle_trans; [exact IH | apply floor_by_previous_step].
Qed.

Lemma floor_by_previous_ge f k : (f k <= Spec.floor_by_previous f k)%Q.
Proof. destruct k; simpl; [apply Qle_refl | apply Q.le_max_l]. Qed.

Lemma floor_by_previous_le f k u :
  (forall j, j <= k -> (f j <= u)%Q) -> (Spec.floor_by_previous f k <= u)%Q.
Proof.
  induction k as [|k IH]; intros Hf; simpl; [apply Hf; lia|].
  apply Q.max_lub; [apply Hf; lia | apply IH; intros j Hj; apply Hf; lia].
Qed.

Lemma cap_by_next_last f n k :
  S k = n -> Spec.cap_by_next f n k = f k.
Proof.
  intros <-. unfold Spec.cap_by_next.
  replace (S k - 1 - k) with 0 by lia. reflexivity.
Qed.

Lemma cap_by_next_step f n k :
  S k < n ->
  Spec.cap_by_next f n k = Qmin (f k) (Spec.cap_by_next f n (S k)).
Proof.
  intros Hk. unfold Spec.cap_by_next.
  replace (n - 1 - k) with (S (n - 1 - S k)) by lia. reflexivity.
Qed.

Lemma cap_by_next_mono f n a b :
  a <= b -> b < n -> (Spec.cap_by_next f n a <= Spec.cap_by_next f n b)%Q.
Proof.
  induction 1 as [|b Hab IH]; intros Hb; [apply Qle_refl|].
  eapply Qle_trans; [apply IH; lia|].
  rewrite cap_by_next_step by lia. apply Q.le_min_r.
Qed.

Lemma cap_by_next_le f n k : k < n -> (Spec.cap_by_next f n k <= f k)%Q.
Proof.
  intros Hk. destruct (decide (S k = n)) as [Hl|Hl].
  - rewrite cap_by_next_last by exact Hl. apply Qle_refl.
  - rewrite cap_by_next_step by lia. apply Q.le_min_l.
Qed.



(** ** The code, rank by rank *)

Lemma length_zeros_like a : length (zeros_like a) = length a.
Proof. apply length_replicate. Qed.

Lemma length_take_indices a idx : length (take_indices a idx) = length idx.
Proof. apply length_fmap. Qed.

(** The two procedures run on any index order [sigma] that is a
    permutation of the rows. *)
Lemma holm_loops_by_rank (p : list Q) (sigma : list nat) :
  sigma ≡ₚ seq 0 (length p) ->
  let c := holm_monotone sigma (length p)
             (holm_assign sigma (take_indices p sigma) (length p)
                (zeros_like p)) in
  length c = length p /\
  forall k, k < length p ->
    c !!! (sigma !!! k)
    = Spec.floor_by_previous
        (Spec.holm_assigned (take_indices p sigma) (length p)) k.
Proof.
  intros Hperm c. pose proof (perm_length _ _ Hperm) as Hlen.
  destruct (holm_assign_rank _ _ Hperm (take_indices p sigma)
              (zeros_like p)) as (Hl1 & Hk1).
  { apply length_zeros_like. }
  { rewrite length_take_indices. lia. }
  destruct (holm_monotone_rank _ _ Hperm _ Hl1) as (Hl2 & Hk2).
  split; [exact Hl2|]. intros k Hk. unfold c. rewrite Hk2 by exact Hk.
  apply floor_by_previous_ext. intros j Hj. apply Hk1.
  rewrite length_take_indices. lia.
Qed.

Lemma fdr_loop_by_rank (p : list Q) (sigma : list nat) :
  sigma ≡ₚ seq 0 (length p) ->
  let c := fdr_loop sigma (take_indices p sigma) (length p) (zeros_like p) in
  length c = length p /\
  forall k, k < length p ->
    c !!! (sigma !!! k)
    = Spec.cap_by_next
        (Spec.fdr_assigned (take_indices p sigma) (length p)) (length p) k.
Proof.
  intros Hperm c. apply (fdr_loop_rank _ _ Hperm), length_zeros_like.
Qed.

Lemma holm_by_rank p :
  length (_holm_correction p) = length p /\
  forall k, k < length p ->
    _holm_correction p !!! (argsort p !!! k)
    = Spec.floor_by_previous
        (Spec.holm_assigned (take_indices p (argsort p)) (length p)) k.
Proof. apply holm_loops_by_rank, argsort_perm. Qed.

Lemma fdr_by_rank p :
  length (_fdr_correction p) = length p /\
  forall k, k < length p ->
    _fdr_correction p !!! (argsort p !!! k)
    = Spec.cap_by_next
        (Spec.fdr_assigned (take_indices p (argsort p)) (length p))
        (length p) k.
Proof. apply fdr_loop_by_rank, argsort_perm. Qed.



(** ** Order and bounds of the corrected values *)

Lemma sorted_p_lookup p k :
  k < length p -> take_indices p (argsort p) !!! k = p !!! (argsort p !!! k).
Proof.
  intros Hk. unfold take_indices.
  apply (list_lookup_total_fmap (fun i => p !!! i) (argsort p) k).
  rewrite (perm_length _ _ (argsort_perm p)). exact Hk.
Qed.

Lemma rank_order p a b :
  a < length p -> b < length p ->
  (p !!! (argsort p !!! a) < p !!! (argsort p !!! b))%Q \/
  ((p !!! (argsort p !!! a) == p !!! (argsort p !!! b))%Q /\
   argsort p !!! a <= argsort p !!! b) ->
  a <= b.
Proof.
  intros Ha Hb Hord. destruct (decide (a <= b)) as [|Hba]; [assumption|].
  exfalso. assert (Hlt : b < a) by lia.
  destruct (argsort_rank_before p b a Hlt Ha) as [H|[H1 H2]];
    destruct Hord as [H'|[H1' H2']].
  - apply (Qlt_irrefl (p !!! (argsort p !!! a))). eapply Qlt_trans; eassumption.
  - rewrite H1' in H. apply (Qlt_irrefl _ H).
  - rewrite H1 in H'. apply (Qlt_irrefl _ H').
  - lia.
Qed.

(** C1.  Read in ascending order of the raw p-value, the Holm and the
    FDR-BH corrected values never decrease: when [p_i] is below [p_j], or
    ties with it and row [i] comes no later than row [j], the corrected
    value of row [i] is at most that of row [j]. *)
Theorem corrected_monotone_in_raw_order (p : list Q) (i j : nat) :
  i < length p -> j < length p ->
  (p !!! i < p !!! j)%Q \/ ((p !!! i == p !!! j)%Q /\ i <= j) ->
  (_holm_correction p !!! i <= _holm_correction p !!! j)%Q /\
  (_fdr_correction p !!! i <= _fdr_correction p !!! j)%Q.
Proof.
  intros Hi Hj Hord. pose proof (argsort_perm p) as Hperm.
  destruct (perm_surj _ _ Hperm i Hi) as (a & Ha & Hai).
  destruct (perm_surj _ _ Hperm j Hj) as (b & Hb & Hbj).
  assert (Hab : a <= b).
  { apply (rank_order p); [assumption..|]. rewrite Hai, Hbj. exact Hord. }
  destruct (holm_by_rank p) as (_ & Hholm).
  destruct (fdr_by_rank p) as (_ & Hfdr).
  rewrite <- Hai, <- Hbj. rewrite !Hholm, !Hfdr by assumption. split.
  - apply floor_by_previous_mono, Hab.
  - apply cap_by_next_mono; assumption.
Qed.

Lemma inject_Z_le_1 (z : Z) : (1 <= z)%Z -> (1 <= inject_Z z)%Q.
Proof. intros Hz. unfold Qle. simpl. lia. Qed.

Lemma inject_Z_nonneg (z : Z) : (0 <= z)%Z -> (0 <= inject_Z z)%Q.
Proof. intros Hz. unfold Qle. simpl. lia. Qed.

Lemma Qle_scale (x : Q) (z : Z) :
  (0 <= x)%Q -> (1 <= z)%Z -> (x <= x * inject_Z z)%Q.
Proof.
  intros Hx Hz. apply inject_Z_le_1 in Hz. nra.
Qed.

Lemma Qdiv_le_self (y : Q) (z : Z) :
  (0 <= y)%Q -> (1 <= z)%Z -> (y / inject_Z z <= y)%Q.
Proof.
  intros Hy Hz. apply Qle_shift_div_r.
  - apply (Qlt_le_trans _ 1); [reflexivity | apply inject_Z_le_1, Hz].
  - apply Qle_scale; assumption.
Qed.


Lemma bonferroni_lookup p i :
  i < length p ->
  bonferroni p !!! i = Qmin (p !!! i * inject_Z (Z.of_nat (length p))) 1.
Proof.
  intros Hi. unfold bonferroni. cbv zeta.
  rewrite (list_lookup_total_fmap (fun c => Qmin c 1) _ i)
    by (rewrite length_fmap; exact Hi).
  rewrite (list_lookup_total_fmap
             (fun x => (x * inject_Z (Z.of_nat (length p)))%Q) p i)
    by exact Hi.
  reflexivity.
Qed.

(** C5.  Each FDR-BH corrected p-value is at most the Bonferroni corrected
    p-value [min(1, p * m)] of the same row. *)
Theorem fdr_le_bonferroni (p : list Q) (i : nat) :
  (forall x, x ∈ p -> (0 <= x)%Q) -> i < length p ->
  (_fdr_correction p !!! i <= bonferroni p !!! i)%Q.
Proof.
  intros Hpos Hi. pose proof (argsort_perm p) as Hperm.
  destruct (perm_surj _ _ Hperm i Hi) as (k & Hk & Hki).
  destruct (fdr_by_rank p) as (_ & Hfdr).
  rewrite bonferroni_lookup by exact Hi. rewrite <- Hki at 1.
  rewrite Hfdr by exact Hk.
  eapply Qle_trans; [apply cap_by_next_le, Hk|].
  unfold Spec.fdr_assigned. rewrite sorted_p_lookup, Hki by exact Hk.
  assert (Hx : (0 <= p !!! i)%Q).
  { apply Hpos, list_elem_of_lookup_total_2, Hi. }
  apply Q.min_glb; [|apply Q.le_min_l].
  eapply Qle_trans; [apply Q.le_min_r|].
  apply Qdiv_le_self; [|lia].
  apply Qmult_le_0_compat; [exact Hx|]. apply inject_Z_nonneg. lia.
Qed.


(** ** The order of tied p-values does not matter

    [np.argsort] fixes the order of equal keys only by its sorting
    algorithm.  For p-values that are not negative, the corrected values
    are non-decreasing in the raw p-value for every index order that
    sorts them, whichever way it orders ties. *)

Section any_sort_order.
Context (p : list Q) (sigma : list nat).
Hypothesis Hperm : sigma ≡ₚ seq 0 (length p).
Hypothesis Hsorted : StronglySorted Qle (take_indices p sigma).
Hypothesis Hpos : forall x, x ∈ p -> (0 <= x)%Q.

Lemma sorted_value_lookup k :
  k < length p -> take_indices p sigma !!! k = p !!! (sigma !!! k).
Proof.
  intros Hk. unfold take_indices.
  apply (list_lookup_total_fmap (fun i => p !!! i) sigma k).
  rewrite (perm_length _ _ Hperm). exact Hk.
Qed.

Lemma sorted_value_nonneg k :
  k < length p -> (0 <= take_indices p sigma !!! k)%Q.
Proof.
  intros Hk. rewrite sorted_value_lookup by exact Hk.
  apply Hpos, list_elem_of_lookup_total_2, (perm_bound _ _ Hperm), Hk.
Qed.

Lemma sorted_value_le a b :
  a <= b -> b < length p ->
  (take_indices p sigma !!! a <= take_indices p sigma !!! b)%Q.
Proof.
  intros Hab Hb. destruct (decide (a = b)) as [->|Hne]; [apply Qle_refl|].
  pose proof (length_take_indices p sigma) as Hl.
  rewrite (perm_length _ _ Hperm) in Hl.
  apply (StronglySorted_lookup_lt Qle (take_indices p sigma) a b);
    [exact Hsorted | | | lia];
    apply list_lookup_lookup_total_lt; lia.
Qed.

Lemma holm_assigned_tie k :
  S k < length p ->
  (take_indices p sigma !!! S k == take_indices p sigma !!! k)%Q ->
  (Spec.holm_assigned (take_indices p sigma) (length p) (S k)
   <= Spec.holm_assigned (take_indices p sigma) (length p) k)%Q.
Proof.
  intros Hk Htie. unfold Spec.holm_assigned. apply Q.min_le_compat_l.
  rewrite Htie.
  pose proof (sorted_value_nonneg k ltac:(lia)) as Hx.
  assert (Hz : (inject_Z (Z.of_nat (length p) - Z.of_nat (S k))
                <= inject_Z (Z.of_nat (length p) - Z.of_nat k))%Q)
    by (rewrite <- Zle_Qle; lia).
  nra.
Qed.

Lemma holm_tie_step k :
  S k < length p ->
  (take_indices p sigma !!! S k == take_indices p sigma !!! k)%Q ->
  (Spec.floor_by_previous
     (Spec.holm_assigned (take_indices p sigma) (length p)) (S k)
   == Spec.floor_by_previous
        (Spec.holm_assigned (take_indices p sigma) (length p)) k)%Q.
Proof.
  intros Hk Htie. cbn [Spec.floor_by_previous]. apply Q.max_r.
  eapply Qle_trans; [apply holm_assigned_tie; assumption|].
  apply floor_by_previous_ge.
Qed.

Lemma Qdiv_le_compat_denominator (y : Q) (c1 c2 : Z) :
  (0 <= y)%Q -> (1 <= c1)%Z -> (c1 <= c2)%Z ->
  (y / inject_Z c2 <= y / inject_Z c1)%Q.
Proof.
  intros Hy H1 H12.
  assert (Hc1 : (1 <= inject_Z c1)%Q) by (apply inject_Z_le_1, H1).
  assert (Hc12 : (inject_Z c1 <= inject_Z c2)%Q) by (rewrite <- Zle_Qle; lia).
  apply Qle_shift_div_r; [lra|].
  assert (Hq : (0 <= y / inject_Z c1)%Q).
  { apply Qle_shift_div_l; lra. }
  assert (Hy' : (inject_Z c1 * (y / inject_Z c1) == y)%Q).
  { apply Qmult_div_r. lra. }
  nra.
Qed.

Lemma fdr_assigned_tie k :
  S k < length p ->
  (take_indices p sigma !!! S k == take_indices p sigma !!! k)%Q ->
  (Spec.fdr_assigned (take_indices p sigma) (length p) (S k)
   <= Spec.fdr_assigned (take_indices p sigma) (length p) k)%Q.
Proof.
  intros Hk Htie. unfold Spec.fdr_assigned. apply Q.min_le_compat_l.
  rewrite Htie. apply Qdiv_le_compat_denominator; [|lia..].
  apply Qmult_le_0_compat; [apply sorted_value_nonneg; lia|].
  apply inject_Z_nonneg. lia.
Qed.

Lemma fdr_tie_step k :
  S k < length p ->
  (take_indices p sigma !!! S k == take_indices p sigma !!! k)%Q ->
  (Spec.cap_by_next
     (Spec.fdr_assigned (take_indices p sigma) (length p)) (length p) k
   == Spec.cap_by_next
        (Spec.fdr_assigned (take_indices p sigma) (length p)) (length p)
        (S k))%Q.
Proof.
  intros Hk Htie. rewrite cap_by_next_step by exact Hk. apply Q.min_r.
  eapply Qle_trans; [apply cap_by_next_le, Hk|].
  apply fdr_assigned_tie; assumption.
Qed.

Lemma tied_ranks_agree a b :
  a <= b -> b < length p ->
  (take_indices p sigma !!! b <= take_indices p sigma !!! a)%Q ->
  (Spec.floor_by_previous
     (Spec.holm_assigned (take_indices p sigma) (length p)) b
   == Spec.floor_by_previous
        (Spec.holm_assigned (take_indices p sigma) (length p)) a)%Q /\
  (Spec.cap_by_next
     (Spec.fdr_assigned (take_indices p sigma) (length p)) (length p) a
   == Spec.cap_by_next
        (Spec.fdr_assigned (take_indices p sigma) (length p)) (length p) b)%Q.
Proof.
  induction 1 as [|b Hab IH]; intros Hb Hle; [split; reflexivity|].
  assert (Hstep : (take_indices p sigma !!! S b
                   == take_indices p sigma !!! b)%Q).
  { apply Qle_antisym.
    - eapply Qle_trans; [exact Hle | apply sorted_value_le; lia].
    - apply sorted_value_le; lia. }
  destruct IH as [IHh IHf]; [lia | |].
  { rewrite <- Hstep. exact Hle. }
  split.
  - rewrite holm_tie_step by assumption. exact IHh.
  - rewrite IHf. apply fdr_tie_step; assumption.
Qed.

(** The loops of [_holm_correction] and [_fdr_correction], run with any
    index order that sorts the p-values, give corrected values that are
    non-decreasing in the raw p-value: a comparison with the lower or
    equal raw p-value never gets the higher corrected value, whichever
    way the sort orders ties. *)
Lemma any_sort_order_monotone i j :
  i < length p -> j < length p -> (p !!! i <= p !!! j)%Q ->
  (holm_monotone sigma (length p)
     (holm_assign sigma (take_indices p sigma) (length p) (zeros_like p))
     !!! i
   <= holm_monotone sigma (length p)
        (holm_assign sigma (take_indices p sigma) (length p) (zeros_like p))
        !!! j)%Q /\
  (fdr_loop sigma (take_indices p sigma) (length p) (zeros_like p) !!! i
   <= fdr_loop sigma (take_indices p sigma) (length p) (zeros_like p)
        !!! j)%Q.
Proof.
  intros Hi Hj Hij.
  destruct (perm_surj _ _ Hperm i Hi) as (a & Ha & Hai).
  destruct (perm_surj _ _ Hperm j Hj) as (b & Hb & Hbj).
  destruct (holm_loops_by_rank p sigma Hperm) as (_ & Hholm).
  destruct (fdr_loop_by_rank p sigma Hperm) as (_ & Hfdr).
  rewrite <- Hai, <- Hbj. rewrite !Hholm, !Hfdr by assumption.
  destruct (decide (a <= b)) as [Hab|Hba].
  - split; [apply floor_by_previous_mono, Hab|].
    apply cap_by_next_mono; assumption.
  - destruct (tied_ranks_agree b a) as [Hh Hf]; [lia | exact Ha | |].
    { rewrite !sorted_value_lookup by assumption. rewrite Hai, Hbj. exact Hij. }
    split; [rewrite Hh | rewrite Hf]; apply Qle_refl.
Qed.

End any_sort_order.

Lemma p_example_range x : x ∈ p_example -> (0 <= x <= 1)%Q.
Proof.
  intros Hx. apply list_elem_of_In in Hx. simpl in Hx.
  destruct Hx as [<-|[<-|[<-|[<-|[]]]]]; split; unfold Qle; simpl; lia.
Qed.

Lemma corrected_monotone_in_raw_order_witness :
  (p_example !!! 1%nat == p_example !!! 3%nat)%Q /\
  (_holm_correction p_example !!! 1%nat <= _holm_correction p_example !!! 3%nat)%Q /\
  (_fdr_correction p_example !!! 1%nat <= _fdr_correction p_example !!! 3%nat)%Q.
Proof.
  split; [reflexivity|].
  apply (corrected_monotone_in_raw_order p_example 1 3);
    [simpl; lia | simpl; lia |].
  right. split; [reflexivity | lia].
Defined.

Lemma fdr_le_bonferroni_witness :
  (_fdr_correction p_example !!! 2%nat <= bonferroni p_example !!! 2%nat)%Q.
Proof.
  apply (fdr_le_bonferroni p_example 2); [|simpl; lia].
  intros x Hx. apply (p_example_range x Hx).
Defined.


(** ** The tables of [apply_multiple_comparison_correction] *)

Lemma getitem_setitem_eq df name col :
  getitem (setitem df name col) name = Ok col.
Proof.
  induction df as [|[name' col'] df IH]; simpl.
  - rewrite String.eqb_refl. reflexivity.
  - destruct (String.eqb name' name) eqn:E; simpl.
    + rewrite String.eqb_refl. reflexivity.
    + rewrite E. exact IH.
Qed.

Lemma getitem_setitem_ne df name name' col :
  name <> name' -> getitem (setitem df name col) name' = getitem df name'.
Proof.
  intros Hne. induction df as [|[name0 col0] df IH]; simpl.
  - destruct (String.eqb_spec name name'); [contradiction | reflexivity].
  - destruct (String.eqb_spec name0 name) as [->|Hn]; simpl.
    + destruct (String.eqb_spec name name'); [contradiction|].
      reflexivity.
    + destruct (String.eqb_spec name0 name'); [reflexivity | exact IH].
Qed.

Lemma ttest_key_fresh method : "ttest" <> "ttest_" +:+ method.
Proof. simpl. discriminate. Qed.

Lemma new_columns_differ suffix :
  "Significant_" +:+ suffix <> "P_Value_" +:+ suffix.
Proof. simpl. discriminate. Qed.

(** C8, as the code has it.  A correction leaves the stored t-test table
    and every other existing table as they were.  It makes a copy of the
    t-test table, adds the two columns of the method to the copy, keeps
    every other column of the copy as it was, stores the copy under
    [ttest_<method>] and returns it. *)
Theorem correction_augments_a_copy (method : string) (st st' : state)
    (data : ref) :
  apply_multiple_comparison_correction method st = Ok (st', data) ->
  exists ttest p_values corrected_p,
    results (self st) !! "ttest" = Some ttest /\
    getitem (heap st !!! ttest) "P_Value" = Ok (Float64 p_values) /\
    corrected_for method p_values = Ok corrected_p /\
    (forall r, r < length (heap st) -> heap st' !! r = heap st !! r) /\
    (forall k, k <> "ttest_" +:+ method ->
       results (self st') !! k = results (self st) !! k) /\
    results (self st') !! "ttest" = Some ttest /\
    alpha (self st') = alpha (self st) /\
    data = length (heap st) /\
    results (self st') !! ("ttest_" +:+ method) = Some data /\
    exists df,
      heap st' !! data = Some df /\
      getitem df ("P_Value_" +:+ upper method) = Ok (Float64 corrected_p) /\
      getitem df ("Significant_" +:+ upper method)
      = Ok (Bool ((fun c => Qltb c (alpha (self st))) <$> corrected_p)) /\
      forall name,
        name <> "P_Value_" +:+ upper method ->
        name <> "Significant_" +:+ upper method ->
        getitem df name = getitem (heap st !!! ttest) name.
Proof.
  unfold apply_multiple_comparison_correction, copy.
  destruct (results (self st) !! "ttest") as [ttest|] eqn:Httest; [|discriminate].
  set (n := length (heap st)).
  match goal with
  | |- context [getitem ?t "P_Value"] =>
      assert (Hcopy : t = heap st !!! ttest);
      [ rewrite lookup_total_app_r by (unfold n; lia);
        unfold n; rewrite Nat.sub_diag; reflexivity
      | rewrite !Hcopy ]
  end.
  destruct (getitem (heap st !!! ttest) "P_Value") as [[p_values| | |]|] eqn:Hp;
    cbn [bind]; try discriminate.
  destruct (corrected_for method p_values) as [corrected_p|] eqn:Hc;
    cbn [bind]; [|discriminate].
  assert (Hn : n < length (heap st ++ [heap st !!! ttest])).
  { rewrite length_app. simpl. unfold n. lia. }
  rewrite (list_lookup_total_insert_eq _ n) by exact Hn.
  intros [= <- <-]. exists ttest, p_values, corrected_p. cbn [heap self results alpha].
  split; [reflexivity|]. split; [exact Hp|]. split; [exact Hc|].
  split.
  { intros r Hr. rewrite !list_lookup_insert_ne by (unfold n; lia).
    apply lookup_app_l. exact Hr. }
  split; [intros k Hk; apply lookup_insert_ne; congruence|].
  split.
  { rewrite lookup_insert_ne by (symmetry; apply ttest_key_fresh).
    exact Httest. }
  split; [reflexivity|]. split; [reflexivity|].
  split; [apply lookup_insert_eq|].
  eexists. split.
  { apply list_lookup_insert_eq. rewrite length_insert. exact Hn. }
  split.
  { rewrite getitem_setitem_ne by apply new_columns_differ.
    apply getitem_setitem_eq. }
  split; [apply getitem_setitem_eq|].
  intros name Hn1 Hn2.
  rewrite getitem_setitem_ne by congruence.
  rewrite getitem_setitem_ne by congruence. reflexivity.
Qed.

(** C8, counterexample to the claim as stated: after a Bonferroni
    correction of the example run, the table stored under [ttest] is the
    table it was and has no Bonferroni column. *)
Lemma correction_is_not_in_place :
  exists st' data,
    apply_multiple_comparison_correction "bonferroni" state_example
    = Ok (st', data) /\
    ~ Spec.carries_columns st' "ttest"
        ["P_Value_BONFERRONI"; "Significant_BONFERRONI"].
Proof.
  destruct (apply_multiple_comparison_correction "bonferroni" state_example)
    as [[st' data]|e] eqn:E; vm_compute in E; [|discriminate].
  injection E as <- <-. eexists _, _. split; [reflexivity|].
  intros (r & df & Hr & Hdf & Hcols).
  vm_compute in Hr. injection Hr as <-.
  vm_compute in Hdf. injection Hdf as <-.
  destruct (Hcols "P_Value_BONFERRONI") as [col Hcol]; [left|].
  vm_compute in Hcol. discriminate.
Qed.

Lemma correction_augments_a_copy_witness :
  exists st' data,
    apply_multiple_comparison_correction "holm" state_example = Ok (st', data) /\
    results (self st') !! "ttest" = Some 0 /\
    heap st' !! 0 = Some ttest_example /\
    data = 1.
Proof.
  destruct (apply_multiple_comparison_correction "holm" state_example)
    as [[st' data]|e] eqn:E; [|vm_compute in E; discriminate].
  destruct (correction_augments_a_copy _ _ _ _ E)
    as (ttest & p & c & Ht & _ & _ & Hheap & _ & Ht' & _ & Hdata & _).
  vm_compute in Ht. injection Ht as <-.
  exists st', data. split; [reflexivity|]. split; [exact Ht'|].
  split; [|exact Hdata]. apply (Hheap 0). simpl. lia.
Defined.

End StatsFacts.

(** * Facts about the Ct pipeline *)

Module AnalyzerFacts.
Import Analyzer.

(** ** Missing columns *)

Lemma select_columns_ok names available :
  (forall col, col ∈ names -> col ∈ available) ->
  select_columns names available = Ok tt.
Proof.
  intros Hall. unfold select_columns.
  destruct (list_find _ names) as [[i col]|] eqn:Hfind; [|reflexivity].
  apply list_find_Some in Hfind as (Hcol & Hmiss & _).
  exfalso. apply Hmiss, Hall. eapply list_elem_of_lookup_2, Hcol.
Qed.

Lemma select_columns_missing names available col :
  col ∈ names -> col ∉ available ->
  exists missing,
    missing ∈ names /\ (missing ∉ available) /\
    select_columns names available = Raise (KeyError missing).
Proof.
  intros Hin Hmiss. unfold select_columns.
  destruct (list_find_elem_of (fun c => c ∉ available) names col Hin Hmiss)
    as [[i missing] Hfind].
  rewrite Hfind. apply list_find_Some in Hfind as (Hl & Hm & _).
  exists missing. split; [eapply list_elem_of_lookup_2, Hl|]. auto.
Qed.

(** Membership in a list that is written out. *)
Ltac in_list :=
  repeat match goal with
         | H : _ ∈ _ |- _ => apply list_elem_of_In in H; simpl in H
         end;
  apply list_elem_of_In; simpl; intuition (subst; auto).

(** What the averaging step does on a table that lacks one of its five
    columns: the lookup of the grouping keys or of the aggregated column
    raises KeyError for an absent column. *)
Lemma averaging_raises_key_error (self : qPCRAnalyzer)
    (raw : RawData) (col : string) :
  raw_data self = Some raw ->
  col ∈ ["Sample_ID"; "Gene"; "Condition"; "Biological_Rep"; "Ct_Value"] ->
  col ∉ columns raw ->
  exists missing,
    missing ∈ ["Sample_ID"; "Gene"; "Condition"; "Biological_Rep"; "Ct_Value"] /\
    (missing ∉ columns raw) /\
    calculate_technical_replicates_mean self = Raise (KeyError missing).
Proof.
  intros Hraw Hcol Hmiss. unfold calculate_technical_replicates_mean.
  rewrite Hraw.
  destruct (select_columns
              ["Sample_ID"; "Gene"; "Condition"; "Biological_Rep"]
              (columns raw)) as [[]|e] eqn:Hsel; cbn [bind].
  - assert (Hct : col = "Ct_Value").
    { destruct (decide (col = "Ct_Value")) as [|Hne]; [assumption|].
      destruct (select_columns_missing
                  ["Sample_ID"; "Gene"; "Condition"; "Biological_Rep"]
                  (columns raw) col) as (m & _ & _ & Hm);
        [clear Hsel; in_list | exact Hmiss | congruence]. }
    subst col. exists "Ct_Value". split; [clear; in_list|].
    split; [exact Hmiss|].
    destruct (select_columns_missing ["Ct_Value"] (columns raw) "Ct_Value")
      as (m & Hm & _ & ->); [left | exact Hmiss |].
    apply list_elem_of_singleton in Hm as ->. reflexivity.
  - unfold select_columns in Hsel.
    destruct (list_find _ _) as [[i m]|] eqn:Hfind; [|discriminate].
    injection Hsel as <-.
    apply list_find_Some in Hfind as (Hl & Hm & _).
    apply list_elem_of_lookup_2 in Hl.
    exists m. split; [clear -Hl; in_list|]. split; [exact Hm | reflexivity].
Qed.

(** C7, as the code has it.  When one of the columns Sample_ID, Gene,
    Condition, Biological_Rep, Ct_Value is absent from the loaded table,
    the averaging step fails and produces no table.  It has no column
    check of its own: its error is the KeyError of pandas for an absent
    column, raised by the grouping, and never the missing-required-column
    error.  That error is raised by [validate_data], with the list of the
    absent columns, when Sample_ID, Gene, Condition or Ct_Value is
    absent. *)
Theorem averaging_fails_on_missing_column (self : qPCRAnalyzer)
    (raw : RawData) (col : string) :
  raw_data self = Some raw ->
  col ∈ ["Sample_ID"; "Gene"; "Condition"; "Biological_Rep"; "Ct_Value"] ->
  col ∉ columns raw ->
  (exists missing,
     missing ∈ ["Sample_ID"; "Gene"; "Condition"; "Biological_Rep";
                "Ct_Value"] /\
     (missing ∉ columns raw) /\
     calculate_technical_replicates_mean self = Raise (KeyError missing)) /\
  (forall e, calculate_technical_replicates_mean self = Raise e ->
             ~ Spec.SchemaError e) /\
  (col ∈ ["Sample_ID"; "Gene"; "Condition"; "Ct_Value"] ->
   exists missing,
     col ∈ missing /\
     (forall c, c ∈ missing <->
                c ∈ ["Sample_ID"; "Gene"; "Condition"; "Ct_Value"] /\
                (c ∉ columns raw)) /\
     validate_data self
     = Raise (ValueError ("Missing required columns: "
                          +:+ repr_list missing)) /\
     Spec.SchemaError (ValueError ("Missing required columns: "
                                   +:+ repr_list missing))).
Proof.
  intros Hraw Hcol Hmiss.
  destruct (averaging_raises_key_error self raw col Hraw Hcol Hmiss)
    as (missing & Hin & Hout & Hraise).
  split; [exists missing; auto|]. split.
  - intros e He [cols ->]. rewrite Hraise in He. discriminate.
  - intros Hfour. unfold validate_data. rewrite Hraw. cbv zeta.
    match goal with
    | |- context [length ?m] => remember m as absent eqn:E
    end.
    assert (Habsent : col ∈ absent).
    { rewrite E. apply list_elem_of_filter. auto. }
    exists absent. split; [exact Habsent|]. split.
    { intros c. rewrite E, list_elem_of_filter. tauto. }
    destruct absent as [|c l]; [apply elem_of_nil in Habsent; contradiction|].
    split; [reflexivity|]. eexists. reflexivity.
Qed.

(** C7, counterexample to the claim as stated: on a table without the
    Biological_Rep column the averaging step raises KeyError
    'Biological_Rep', which is not the missing-required-column error, and
    the column check of [validate_data] passes the table. *)
Lemma averaging_error_is_not_schema_error :
  (exists raw, raw_data no_biological_rep = Some raw /\
               "Biological_Rep" ∉ columns raw) /\
  calculate_technical_replicates_mean no_biological_rep
  = Raise (KeyError "Biological_Rep") /\
  ~ Spec.SchemaError (KeyError "Biological_Rep") /\
  (exists v, validate_data no_biological_rep = Ok v /\ valid v = true).
Proof.
  split; [|split; [|split]].
  - eexists. split; [reflexivity|]. cbn. intros Hin.
    apply list_elem_of_In in Hin. simpl in Hin. intuition discriminate.
  - reflexivity.
  - intros [cols H]. discriminate.
  - eexists. split; reflexivity.
Qed.

Lemma averaging_fails_on_missing_column_witness :
  exists missing,
    (missing ∉ ["Sample_ID"; "Gene"; "Condition"; "Ct_Value"]) /\
    calculate_technical_replicates_mean no_biological_rep
    = Raise (KeyError missing).
Proof.
  destruct (averaging_fails_on_missing_column no_biological_rep
              {| columns := ["Sample_ID"; "Gene"; "Condition"; "Ct_Value"];
                 rows := [measurement "S1" "IL6" "Control" "" 22] |}
              "Biological_Rep")
    as ((m & _ & Hm & Hraise) & _).
  - reflexivity.
  - right. right. right. left.
  - simpl. intros Hin. apply list_elem_of_In in Hin. simpl in Hin.
    intuition discriminate.
  - exists m. split; [exact Hm | exact Hraise].
Defined.

(** ** The column check of [validate_data] *)

Lemma validate_data_missing_column (self : qPCRAnalyzer) (raw : RawData)
    (col : string) :
  raw_data self = Some raw ->
  col ∈ ["Sample_ID"; "Gene"; "Condition"; "Ct_Value"] ->
  col ∉ columns raw ->
  exists msg, validate_data self = Raise (ValueError msg).
Proof.
  intros Hraw Hcol Hmiss. unfold validate_data. rewrite Hraw. cbv zeta.
  assert (Hin : col ∈ filter (fun c => c ∉ columns raw)
                         ["Sample_ID"; "Gene"; "Condition"; "Ct_Value"]).
  { apply list_elem_of_filter. auto. }
  destruct (filter _ _) as [|c l] eqn:Hf.
  - apply elem_of_nil in Hin. contradiction.
  - eexists. reflexivity.
Qed.

(** A table without [Biological_Rep] passes the column check; the
    averaging step is where its absence is met. *)
Lemma validate_data_passes_without_biological_rep :
  exists v, validate_data no_biological_rep = Ok v /\ valid v = true.
Proof. eexists. split; reflexivity. Qed.

(** ** Averaging technical replicates *)

Lemma sorted_keys_elem_of {A} `{EqDecision A} (le : relation A)
    `{forall a b, Decision (le a b)} (l : list A) (x : A) :
  x ∈ sorted_keys le l <-> x ∈ l.
Proof.
  unfold sorted_keys.
  rewrite (elem_of_Permutation_proper x _ _ (merge_sort_Permutation le _)).
  apply elem_of_remove_dups.
Qed.









(** ** Delta-delta-Ct and fold change *)

Lemma unique_elem_of {A} `{EqDecision A} (l : list A) (x : A) :
  x ∈ unique l <-> x ∈ l.
Proof.
  unfold unique. rewrite elem_of_reverse, elem_of_remove_dups.
  apply elem_of_reverse.
Qed.

Lemma unique_NoDup {A} `{EqDecision A} (l : list A) : NoDup (unique l).
Proof.
  unfold unique.
  apply (NoDup_Permutation_proper _ _ (reverse_Permutation _)).
  apply NoDup_remove_dups.
Qed.

(** [control_delta_ct.get(gene, np.nan)]. *)
Lemma control_means_get (control_rows : list DeltaCt) (gene : string) :
  default None (control_means control_rows !! gene)
  = if decide (gene ∈ dc_Target_Gene <$> control_rows)
    then mean (Delta_Ct <$>
                 filter (fun r => dc_Target_Gene r = gene) control_rows)
    else None.
Proof.
  unfold control_means.
  set (entry := fun gene : string =>
         (gene, mean (Delta_Ct <$>
                        filter (fun r => dc_Target_Gene r = gene) control_rows))).
  assert (Hfst : (entry <$> unique (dc_Target_Gene <$> control_rows)).*1
                 = unique (dc_Target_Gene <$> control_rows)).
  { rewrite <- list_fmap_compose. apply list_fmap_id. }
  destruct (decide (gene ∈ dc_Target_Gene <$> control_rows)) as [Hin|Hout].
  - rewrite (elem_of_list_to_map_1 _ gene (entry gene).2).
    + reflexivity.
    + rewrite Hfst. apply unique_NoDup.
    + apply (list_elem_of_fmap_2 entry), unique_elem_of, Hin.
  - assert (Hnone : gene ∉ (entry <$> unique (dc_Target_Gene <$> control_rows)).*1).
    { rewrite Hfst, unique_elem_of. exact Hout. }
    rewrite (not_elem_of_list_to_map_1 _ gene Hnone). reflexivity.
Qed.

(** The rows of the nested loops: one output row per input row. *)
Lemma results_elem_of (control_delta_ct : gmap string float)
    (data : list DeltaCt) (o : DeltaDeltaCt) :
  o ∈ delta_delta_ct_results control_delta_ct data
  <-> exists row,
        row ∈ data /\
        o = delta_delta_ct_row
              (default None (control_delta_ct !! dc_Target_Gene row)) row.
Proof.
  unfold delta_delta_ct_results. rewrite list_elem_of_In, in_flat_map. split.
  - intros (gene & _ & Ho). apply list_elem_of_In in Ho.
    apply list_elem_of_fmap_1 in Ho as (row & -> & Hrow).
    apply list_elem_of_filter in Hrow as [<- Hrow]. eauto.
  - intros (row & Hrow & ->). exists (dc_Target_Gene row). split.
    + apply list_elem_of_In, unique_elem_of, list_elem_of_fmap_2, Hrow.
    + apply list_elem_of_In, list_elem_of_fmap_2, list_elem_of_filter. auto.
Qed.

Lemma calculate_delta_delta_ct_ok (self : qPCRAnalyzer) (data : list DeltaCt) :
  delta_ct_data self = Some data -> data <> [] ->
  calculate_delta_delta_ct self
  = let results :=
      delta_delta_ct_results
        (control_means
           (filter (fun r => dc_Condition r = control_condition self) data))
        data in
    Ok (set_delta_delta_ct_data results self, results).
Proof.
  intros Hdata Hne. unfold calculate_delta_delta_ct. rewrite Hdata.
  cbn [bind default]. rewrite Hdata. cbn [default].
  destruct data; [contradiction | reflexivity].
Qed.

Lemma mean_is_Some (xs : list float) (x : R) :
  Some x ∈ xs -> is_Some (mean xs).
Proof.
  intros Hx. unfold mean.
  assert (Hin : x ∈ dropna xs).
  { unfold dropna. apply list_elem_of_omap. exists (Some x). auto. }
  destruct (dropna xs); [|eexists; reflexivity].
  apply elem_of_nil in Hin. contradiction.
Qed.

Lemma pow2_pos (x : R) : (0 < Rpower 2 x)%R.
Proof. unfold Rpower. apply exp_pos. Qed.

Lemma fold_change_of_row (baseline : float) (row : DeltaCt) :
  match Fold_Change (delta_delta_ct_row baseline row) with
  | Some fc =>
      exists ddct,
        Delta_Delta_Ct (delta_delta_ct_row baseline row) = Some ddct /\
        fc = Rpower 2 (- ddct) /\ (0 < fc)%R
  | None => Delta_Delta_Ct (delta_delta_ct_row baseline row) = None
  end.
Proof.
  unfold delta_delta_ct_row. cbn [Fold_Change Delta_Delta_Ct].
  destruct (fsub (Delta_Ct row) baseline) as [ddct|]; cbn; [|reflexivity].
  exists ddct. split; [reflexivity|]. split; [reflexivity | apply pow2_pos].
Qed.

(** C4.  In every row that [calculate_delta_delta_ct] returns, a defined
    fold change is [2^(-delta_delta_ct)] of that row and is strictly
    positive; the fold change is undefined only where the delta-delta-Ct
    is undefined. *)
Theorem fold_change_is_positive_power (self self' : qPCRAnalyzer)
    (out : list DeltaDeltaCt) (o : DeltaDeltaCt) :
  calculate_delta_delta_ct self = Ok (self', out) ->
  o ∈ out ->
  match Fold_Change o with
  | Some fc =>
      exists ddct,
        Delta_Delta_Ct o = Some ddct /\
        fc = Rpower 2 (- ddct) /\ (0 < fc)%R
  | None => Delta_Delta_Ct o = None
  end.
Proof.
  unfold calculate_delta_delta_ct. intros Hcall Ho.
  destruct (match delta_ct_data self with
            | Some _ => Ok self
            | None => bind (calculate_delta_ct self) (fun r => Ok r.1)
            end) as [self2|e]; cbn [bind] in Hcall; [|discriminate].
  cbv zeta in Hcall.
  destruct (default [] (delta_ct_data self2)) as [|row0 data] eqn:Hdata;
    [discriminate|].
  injection Hcall as _ <-.
  apply results_elem_of in Ho as (row & _ & ->).
  apply fold_change_of_row.
Qed.

Lemma fold_change_is_positive_power_witness :
  exists self' out o,
    calculate_delta_delta_ct tnf_without_control = Ok (self', out) /\
    o ∈ out /\ ddc_Sample_ID o = "S2" /\ ddc_Target_Gene o = "IL6" /\
    match Fold_Change o with
    | Some fc =>
        exists ddct,
          Delta_Delta_Ct o = Some ddct /\
          fc = Rpower 2 (- ddct) /\ (0 < fc)%R
    | None => Delta_Delta_Ct o = None
    end.
Proof.
  pose proof (calculate_delta_delta_ct_ok tnf_without_control
                tnf_without_control_rows eq_refl) as Hcall.
  cbv zeta in Hcall. eexists _, _, _. split; [apply Hcall; discriminate|].
  assert (Hin : delta_delta_ct_row
                  (default None
                     (control_means
                        (filter (fun r => dc_Condition r
                                          = control_condition tnf_without_control)
                                tnf_without_control_rows) !! "IL6"))
                  (delta_ct_row "S2" "Treated" "1" "IL6" 20 18)
                ∈ delta_delta_ct_results
                    (control_means
                       (filter (fun r => dc_Condition r
                                         = control_condition tnf_without_control)
                               tnf_without_control_rows))
                    tnf_without_control_rows).
  { apply results_elem_of.
    exists (delta_ct_row "S2" "Treated" "1" "IL6" 20 18).
    split; [right; left | reflexivity]. }
  split; [exact Hin|]. split; [reflexivity|]. split; [reflexivity|].
  exact (fold_change_is_positive_power _ _ _ _ (Hcall ltac:(discriminate)) Hin).
Defined.

(** C6.  When a gene of the delta-Ct table has no row under the control
    condition, [calculate_delta_delta_ct] returns without an error, keeps
    one output row per input row, and gives every row of that gene an
    undefined control mean, delta-delta-Ct and fold change; a row of a
    gene that has a control row with a defined delta-Ct gets defined
    values. *)
Theorem gene_without_control_is_undefined (self : qPCRAnalyzer)
    (data : list DeltaCt) (gene : string) :
  delta_ct_data self = Some data ->
  gene ∈ dc_Target_Gene <$> data ->
  (forall r, r ∈ data -> dc_Target_Gene r = gene ->
     dc_Condition r <> control_condition self) ->
  exists out,
    calculate_delta_delta_ct self
    = Ok (set_delta_delta_ct_data out self, out) /\
    (forall r, r ∈ data ->
       exists o, o ∈ out /\
         ddc_Sample_ID o = dc_Sample_ID r /\
         ddc_Condition o = dc_Condition r /\
         ddc_Biological_Rep o = dc_Biological_Rep r /\
         ddc_Target_Gene o = dc_Target_Gene r /\
         ddc_Delta_Ct o = Delta_Ct r) /\
    (forall o, o ∈ out -> ddc_Target_Gene o = gene ->
       Control_Mean_Delta_Ct o = None /\
       Delta_Delta_Ct o = None /\
       Fold_Change o = None) /\
    (forall o c, o ∈ out -> c ∈ data ->
       dc_Target_Gene c = ddc_Target_Gene o ->
       dc_Condition c = control_condition self ->
       is_Some (Delta_Ct c) -> is_Some (ddc_Delta_Ct o) ->
       is_Some (Control_Mean_Delta_Ct o) /\
       is_Some (Delta_Delta_Ct o) /\
       is_Some (Fold_Change o)).
Proof.
  intros Hdata Hgene Hnone.
  assert (Hne : data <> []).
  { intros ->. apply elem_of_nil in Hgene. exact Hgene. }
  rewrite (calculate_delta_delta_ct_ok self data Hdata Hne). cbv zeta.
  set (control_rows :=
         filter (fun r => dc_Condition r = control_condition self) data).
  eexists. split; [reflexivity|]. split; [|split].
  - intros r Hr. eexists. split.
    + apply results_elem_of. exists r. split; [exact Hr | reflexivity].
    + repeat split; reflexivity.
  - intros o Ho Hg. apply results_elem_of in Ho as (row & Hrow & ->).
    cbn [ddc_Target_Gene delta_delta_ct_row] in Hg.
    rewrite control_means_get.
    destruct (decide (dc_Target_Gene row ∈ dc_Target_Gene <$> control_rows))
      as [Hin|Hout].
    + exfalso. apply list_elem_of_fmap_1 in Hin as (c & Hc & Hcin).
      apply list_elem_of_filter in Hcin as [Hcond Hcin].
      apply (Hnone c Hcin); [congruence | exact Hcond].
    + unfold delta_delta_ct_row. cbn.
      destruct (Delta_Ct row); auto.
  - intros o c Ho Hc Hg Hcond [x Hx] Hd.
    apply results_elem_of in Ho as (row & Hrow & ->).
    cbn [ddc_Target_Gene ddc_Delta_Ct delta_delta_ct_row] in Hg, Hd.
    rewrite control_means_get.
    assert (Hcin : c ∈ control_rows).
    { apply list_elem_of_filter. auto. }
    destruct (decide (dc_Target_Gene row ∈ dc_Target_Gene <$> control_rows))
      as [Hin|Hout].
    2:{ exfalso. apply Hout. rewrite <- Hg. apply list_elem_of_fmap_2, Hcin. }
    destruct (mean_is_Some
                (Delta_Ct <$> filter (fun r => dc_Target_Gene r
                                               = dc_Target_Gene row)
                                control_rows) x) as [m Hm].
    { rewrite <- Hx. apply (list_elem_of_fmap_2 Delta_Ct).
      apply list_elem_of_filter. auto. }
    rewrite Hm. destruct Hd as [d Hd].
    unfold delta_delta_ct_row. cbn. rewrite Hd. cbn.
    repeat split; eexists; reflexivity.
Qed.

Lemma gene_without_control_is_undefined_witness :
  exists out,
    calculate_delta_delta_ct tnf_without_control
    = Ok (set_delta_delta_ct_data out tnf_without_control, out) /\
    (forall o, o ∈ out -> ddc_Target_Gene o = "TNF" -> Fold_Change o = None) /\
    (exists o, o ∈ out /\ ddc_Target_Gene o = "TNF").
Proof.
  destruct (gene_without_control_is_undefined tnf_without_control
              tnf_without_control_rows "TNF")
    as (out & Hcall & Hrows & Hgene & _).
  - reflexivity.
  - right. right. left.
  - intros r Hr Hg. apply list_elem_of_In in Hr. simpl in Hr.
    destruct Hr as [<-|[<-|[<-|[]]]]; try discriminate Hg. discriminate.
  - exists out. split; [exact Hcall|]. split.
    + intros o Ho Hg. apply (Hgene o Ho Hg).
    + destruct (Hrows (delta_ct_row "S2" "Treated" "1" "TNF" 25 18))
        as (o & Ho & _ & _ & _ & Hg & _).
      * right. right. left.
      * exists o. split; [exact Ho | exact Hg].
Defined.

End AnalyzerFacts.

(** * The last digit in binary64 *)

Module Binary64Facts.
Import PrimFloat Binary64.
#[local] Set Warnings "-inexact-float".
#[local] Open Scope float_scope.



(** Three technical replicates of Ct 22.4 have the mean
    22.399999999999995, with the compensated sum and with the plain sum,
    and the standard deviation 0. *)
Lemma mean_of_three_replicates_is_rounded :
  mean three_replicates = 22.399999999999995 /\
  plain_mean three_replicates = 22.399999999999995 /\
  (mean three_replicates <? 22.4) = true /\
  std three_replicates = 0.
Proof. vm_compute. repeat split; reflexivity. Qed.

(** One and two replicates of Ct 22.4 have the mean 22.4; the standard
    deviation of two is 0 and that of one is NaN. *)
Lemma mean_of_two_replicates_is_exact :
  mean [22.4] = 22.4 /\ mean [22.4; 22.4] = 22.4 /\
  std [22.4; 22.4] = 0 /\ (std [22.4] =? std [22.4]) = false.
Proof. vm_compute. repeat split; reflexivity. Qed.

End Binary64Facts.

(** * Further properties of the correction procedures *)

Module CorrectionProperties.
Import Stats StatsFacts.

(** ** What [apply_multiple_comparison_correction] returns and raises *)

Lemma store_lookup_last (h : list DataFrame) (d : DataFrame) :
  (h ++ [d]) !!! length h = d.
Proof. rewrite lookup_total_app_r by lia. rewrite Nat.sub_diag. reflexivity. Qed.

Lemma store_insert_last (h : list DataFrame) (d d' : DataFrame) :
  <[length h := d']> (h ++ [d]) = h ++ [d'].
Proof. rewrite insert_app_r_alt by lia. rewrite Nat.sub_diag. reflexivity. Qed.

(** The table that a successful call builds from the t-test table. *)
Lemma apply_correction_inv (method : string) (st st' : state) (data : ref) :
  apply_multiple_comparison_correction method st = Ok (st', data) ->
  exists ttest p c,
    results (self st) !! "ttest" = Some ttest /\
    getitem (heap st !!! ttest) "P_Value" = Ok (Float64 p) /\
    corrected_for method p = Ok c /\
    data = length (heap st) /\
    st' = {| heap := heap st ++
                       [setitem
                          (setitem (heap st !!! ttest)
                             ("P_Value_" +:+ upper method) (Float64 c))
                          ("Significant_" +:+ upper method)
                          (Bool ((fun x => Qltb x (alpha (self st))) <$> c))];
             self := {| alpha := alpha (self st);
                        results := <["ttest_" +:+ method := length (heap st)]>
                                     (results (self st)) |} |}.
Proof.
  unfold apply_multiple_comparison_correction, copy.
  destruct (results (self st) !! "ttest") as [ttest|] eqn:Httest; [|discriminate].
  rewrite !store_lookup_last.
  destruct (getitem (heap st !!! ttest) "P_Value") as [[p| | |]|] eqn:Hp;
    cbn [bind]; try discriminate.
  destruct (corrected_for method p) as [c|] eqn:Hc; cbn [bind]; [|discriminate].
  rewrite store_insert_last, store_lookup_last, store_insert_last.
  intros [= <- <-]. exists ttest, p, c. auto.
Qed.

Lemma apply_correction_ok (method : string) (st : state) (ttest : ref)
    (p c : list Q) :
  results (self st) !! "ttest" = Some ttest ->
  getitem (heap st !!! ttest) "P_Value" = Ok (Float64 p) ->
  corrected_for method p = Ok c ->
  apply_multiple_comparison_correction method st
  = Ok ({| heap := heap st ++
                     [setitem
                        (setitem (heap st !!! ttest)
                           ("P_Value_" +:+ upper method) (Float64 c))
                        ("Significant_" +:+ upper method)
                        (Bool ((fun x => Qltb x (alpha (self st))) <$> c))];
           self := {| alpha := alpha (self st);
                      results := <["ttest_" +:+ method := length (heap st)]>
                                   (results (self st)) |} |},
        length (heap st)).
Proof.
  intros Httest Hp Hc. unfold apply_multiple_comparison_correction, copy.
  rewrite Httest, !store_lookup_last, Hp. cbn [bind]. rewrite Hc. cbn [bind].
  rewrite store_insert_last, store_lookup_last, store_insert_last.
  reflexivity.
Qed.

Lemma corrected_for_valid (method : string) (p : list Q) :
  method = "bonferroni" \/ method = "holm" \/ method = "fdr_bh" ->
  exists c, corrected_for method p = Ok c /\ length c = length p.
Proof.
  unfold corrected_for. intros [-> | [-> | ->]]; cbn; eexists; (split; [reflexivity|]).
  - unfold bonferroni. rewrite !length_fmap. reflexivity.
  - apply holm_by_rank.
  - apply fdr_by_rank.
Qed.

Lemma corrected_for_invalid (method : string) (p : list Q) :
  method <> "bonferroni" -> method <> "holm" -> method <> "fdr_bh" ->
  corrected_for method p
  = Raise (ValueError "method must be 'bonferroni', 'holm', or 'fdr_bh'").
Proof.
  intros H1 H2 H3. unfold corrected_for.
  destruct (String.eqb_spec method "bonferroni"); [contradiction|].
  destruct (String.eqb_spec method "holm"); [contradiction|].
  destruct (String.eqb_spec method "fdr_bh"); [contradiction|].
  reflexivity.
Qed.

Lemma getitem_absent (df : DataFrame) (name : string) :
  name ∉ df.*1 -> getitem df name = Raise (KeyError name).
Proof.
  induction df as [|[name' col] df IH]; intros Hout; [reflexivity|].
  cbn [getitem]. destruct (String.eqb_spec name' name) as [->|Hne].
  - exfalso. apply Hout. left.
  - apply IH. intros Hin. apply Hout. right. exact Hin.
Qed.

(** The outcomes of [apply_multiple_comparison_correction].  Without a
    stored t-test table it raises ValueError; on a stored table without a
    [P_Value] column (a run that produced no comparison) it raises
    KeyError; on a table with float p-values it returns for the three
    method names, spelled in lower case, and raises ValueError for every
    other method. *)
Theorem correction_outcomes (method : string) (st : state) :
  (results (self st) !! "ttest" = None ->
   apply_multiple_comparison_correction method st
   = Raise (ValueError "No t-test results found. Run perform_ttest() first.")) /\
  (forall ttest,
     results (self st) !! "ttest" = Some ttest ->
     "P_Value" ∉ (heap st !!! ttest).*1 ->
     apply_multiple_comparison_correction method st
     = Raise (KeyError "P_Value")) /\
  (forall ttest p,
     results (self st) !! "ttest" = Some ttest ->
     getitem (heap st !!! ttest) "P_Value" = Ok (Float64 p) ->
     (method = "bonferroni" \/ method = "holm" \/ method = "fdr_bh" ->
      exists st', apply_multiple_comparison_correction method st
                  = Ok (st', length (heap st))) /\
     (method <> "bonferroni" -> method <> "holm" -> method <> "fdr_bh" ->
      apply_multiple_comparison_correction method st
      = Raise (ValueError "method must be 'bonferroni', 'holm', or 'fdr_bh'"))).
Proof.
  split; [|split].
  - intros Hnone. unfold apply_multiple_comparison_correction.
    rewrite Hnone. reflexivity.
  - intros ttest Httest Hout.
    unfold apply_multiple_comparison_correction, copy.
    assert (Hget : getitem (heap st !!! ttest) "P_Value"
                   = Raise (KeyError "P_Value"))
      by (apply getitem_absent, Hout).
    rewrite Httest, store_lookup_last, Hget. reflexivity.
  - intros ttest p Httest Hp. split.
    + intros Hvalid.
      destruct (corrected_for_valid method p Hvalid) as (c & Hc & _).
      eexists. apply (apply_correction_ok method st ttest p c); assumption.
    + intros H1 H2 H3.
      unfold apply_multiple_comparison_correction, copy.
      rewrite Httest, store_lookup_last, Hp. cbn [bind].
      rewrite (corrected_for_invalid method p H1 H2 H3). reflexivity.
Qed.

(** ** Corrections applied one after the other *)

Lemma ttest_key_inj (m1 m2 : string) :
  "ttest_" +:+ m1 = "ttest_" +:+ m2 -> m1 = m2.
Proof. simpl. intros H. injection H. auto. Qed.

Lemma stored_table_in_store (h : list DataFrame) (r : ref) (col : column) :
  getitem (h !!! r) "P_Value" = Ok col -> r < length h.
Proof.
  intros Hget. destruct (decide (r < length h)) as [|Hge]; [assumption|].
  rewrite list_lookup_total_alt, lookup_ge_None_2 in Hget by lia.
  discriminate.
Qed.

(** A second correction is computed from the raw p-values, as if the
    first had not been applied: its table is the table the same call
    builds on the state before the first correction.  The first table
    stays in the store as it is, and two different methods leave two
    tables under two keys. *)
Theorem corrections_do_not_interact (m1 m2 : string) (st st1 st2 : state)
    (d1 d2 : ref) :
  apply_multiple_comparison_correction m1 st = Ok (st1, d1) ->
  apply_multiple_comparison_correction m2 st1 = Ok (st2, d2) ->
  (exists st2' d2',
     apply_multiple_comparison_correction m2 st = Ok (st2', d2') /\
     heap st2 !! d2 = heap st2' !! d2' /\ is_Some (heap st2 !! d2)) /\
  heap st2 !! d1 = heap st1 !! d1 /\
  is_Some (heap st1 !! d1) /\
  d1 <> d2 /\
  results (self st2) !! ("ttest_" +:+ m2) = Some d2 /\
  (m1 <> m2 -> results (self st2) !! ("ttest_" +:+ m1) = Some d1).
Proof.
  intros H1 H2.
  destruct (apply_correction_inv _ _ _ _ H1)
    as (t & p & c1 & Ht & Hp & Hc1 & -> & ->).
  destruct (apply_correction_inv _ _ _ _ H2)
    as (t2 & p2 & c2 & Ht2 & Hp2 & Hc2 & -> & ->).
  cbn [heap self results alpha] in *.
  rewrite lookup_insert_ne in Ht2 by (symmetry; apply ttest_key_fresh).
  rewrite Ht in Ht2. injection Ht2 as <-.
  pose proof (stored_table_in_store _ _ _ Hp) as Hlt.
  rewrite lookup_total_app_l in Hp2 by exact Hlt.
  assert (Heq : @Ok column (Float64 p2) = Ok (Float64 p))
    by (rewrite <- Hp2; exact Hp).
  injection Heq as ->. clear Hp2.
  rewrite length_app. cbn [length].
  split; [|split; [|split; [|split; [|split]]]].
  - eexists _, _. split.
    + apply (apply_correction_ok m2 st t p c2); assumption.
    + cbn [heap]. rewrite lookup_total_app_l by exact Hlt.
      rewrite !lookup_app_r by (rewrite ?length_app; cbn [length]; lia).
      rewrite length_app. cbn [length].
      rewrite !Nat.sub_diag. split; [reflexivity | eexists; reflexivity].
  - rewrite lookup_app_l by (rewrite length_app; cbn [length]; lia).
    reflexivity.
  - rewrite lookup_app_r by lia. rewrite Nat.sub_diag. eexists. reflexivity.
  - lia.
  - apply lookup_insert_eq.
  - intros Hne. rewrite lookup_insert_ne.
    + apply lookup_insert_eq.
    + intros Heq. apply Hne. symmetry. apply ttest_key_inj, Heq.
Qed.

Lemma corrections_do_not_interact_witness :
  exists st1 d1 st2 d2,
    apply_multiple_comparison_correction "bonferroni" state_example
    = Ok (st1, d1) /\
    apply_multiple_comparison_correction "fdr_bh" st1 = Ok (st2, d2) /\
    d1 <> d2 /\ heap st2 !! d1 = heap st1 !! d1.
Proof.
  destruct (apply_multiple_comparison_correction "bonferroni" state_example)
    as [[st1 d1]|e] eqn:E1; [|vm_compute in E1; discriminate].
  destruct (apply_multiple_comparison_correction "fdr_bh" st1)
    as [[st2 d2]|e] eqn:E2.
  2:{ exfalso. vm_compute in E1. injection E1 as <- <-.
      vm_compute in E2. discriminate. }
  destruct (corrections_do_not_interact _ _ _ _ _ _ _ E1 E2)
    as (_ & Hkeep & _ & Hne & _).
  exists st1, d1, st2, d2. auto.
Defined.

(** ** How the three methods compare *)

Lemma Qltb_lt (x y : Q) : Qltb x y = true <-> (x < y)%Q.
Proof.
  unfold Qltb. rewrite negb_true_iff. split.
  - intros Hb. apply Qnot_le_lt. intros Hle.
    apply Qle_bool_iff in Hle. congruence.
  - intros Hlt. destruct (Qle_bool y x) eqn:Hb; [|reflexivity].
    apply Qle_bool_iff in Hb. exfalso. apply (Qlt_not_le _ _ Hlt Hb).
Qed.

Lemma argsort_value_le (p : list Q) (a b : nat) :
  a <= b -> b < length p ->
  (take_indices p (argsort p) !!! a <= take_indices p (argsort p) !!! b)%Q.
Proof. apply sorted_value_le; [apply argsort_perm | apply sorted_p_ascending]. Qed.

(** Holm's corrected value of a row is at most the row's Bonferroni
    value.  So a row that Bonferroni marks significant is marked by Holm,
    and also by FDR-BH; and a row that Holm marks significant has a raw
    p-value below alpha.  Each step compares values that stay ordered
    when the products are rounded. *)
Theorem methods_are_ordered (p : list Q) (i : nat) (alpha : Q) :
  (forall x, x ∈ p -> (0 <= x <= 1)%Q) -> i < length p ->
  (_holm_correction p !!! i <= bonferroni p !!! i)%Q /\
  (Qltb (bonferroni p !!! i) alpha = true ->
   Qltb (_holm_correction p !!! i) alpha = true) /\
  (Qltb (bonferroni p !!! i) alpha = true ->
   Qltb (_fdr_correction p !!! i) alpha = true) /\
  (Qltb (_holm_correction p !!! i) alpha = true ->
   Qltb (p !!! i) alpha = true).
Proof.
  intros Hp Hi. pose proof (argsort_perm p) as Hperm.
  assert (Hnonneg : forall x, x ∈ p -> (0 <= x)%Q) by (intros x Hx; apply Hp, Hx).
  destruct (perm_surj _ _ Hperm i Hi) as (k & Hk & Hki).
  destruct (holm_by_rank p) as (_ & Hholm).
  destruct (fdr_by_rank p) as (_ & Hfdr).
  pose proof (sorted_value_nonneg p _ Hperm Hnonneg) as Hsp.
  assert (Hhb : (_holm_correction p !!! i <= bonferroni p !!! i)%Q).
  { rewrite bonferroni_lookup by exact Hi. rewrite <- Hki at 1.
    rewrite Hholm by exact Hk.
    apply floor_by_previous_le. intros j Hj. unfold Spec.holm_assigned.
    apply Q.min_glb; [|apply Q.le_min_l].
    eapply Qle_trans; [apply Q.le_min_r|].
    rewrite <- Hki, <- (sorted_value_lookup p _ Hperm k Hk).
    pose proof (argsort_value_le p j k Hj Hk) as Hjk.
    pose proof (Hsp j ltac:(lia)) as Hj0.
    assert (Hz1 : (0 <= inject_Z (Z.of_nat (length p) - Z.of_nat j))%Q)
      by (apply inject_Z_nonneg; lia).
    assert (Hz2 : (inject_Z (Z.of_nat (length p) - Z.of_nat j)
                   <= inject_Z (Z.of_nat (length p)))%Q)
      by (rewrite <- Zle_Qle; lia).
    nra. }
  assert (Hfb : (_fdr_correction p !!! i <= bonferroni p !!! i)%Q).
  { rewrite bonferroni_lookup by exact Hi. rewrite <- Hki at 1.
    rewrite Hfdr by exact Hk.
    eapply Qle_trans; [apply cap_by_next_le, Hk|].
    unfold Spec.fdr_assigned.
    rewrite (sorted_value_lookup p _ Hperm k Hk), Hki.
    assert (Hx : (0 <= p !!! i)%Q).
    { apply Hnonneg, list_elem_of_lookup_total_2, Hi. }
    apply Q.min_glb; [|apply Q.le_min_l].
    eapply Qle_trans; [apply Q.le_min_r|].
    apply Qdiv_le_self; [|lia].
    apply Qmult_le_0_compat; [exact Hx|]. apply inject_Z_nonneg. lia. }
  assert (Hrh : (p !!! i <= _holm_correction p !!! i)%Q).
  { rewrite <- Hki, Hholm by exact Hk.
    eapply Qle_trans; [|apply floor_by_previous_ge].
    unfold Spec.holm_assigned.
    rewrite (sorted_value_lookup p _ Hperm k Hk).
    assert (Hx : (0 <= p !!! (argsort p !!! k) <= 1)%Q).
    { apply Hp, list_elem_of_lookup_total_2, (perm_bound _ _ Hperm), Hk. }
    apply Q.min_glb; [apply Hx|]. apply Qle_scale; [apply Hx | lia]. }
  split; [exact Hhb|].
  rewrite !Qltb_lt. split; [|split]; intros Hlt;
    eapply Qle_lt_trans; eassumption.
Qed.

Lemma methods_are_ordered_witness :
  (_holm_correction p_example !!! 2%nat <= bonferroni p_example !!! 2%nat)%Q.
Proof.
  destruct (methods_are_ordered p_example 2 0.05%Q) as (H1 & _).
  - exact p_example_range.
  - simpl. lia.
  - exact H1.
Defined.

(** ** The smallest p-value and the single comparison *)

(** Holm gives a comparison with the smallest raw p-value its Bonferroni
    value [min(1, p * n)], also when other comparisons share that
    p-value. *)
Theorem smallest_p_gets_its_bonferroni_value (p : list Q) (i : nat) :
  (forall x, x ∈ p -> (0 <= x)%Q) -> i < length p ->
  (forall j, j < length p -> (p !!! i <= p !!! j)%Q) ->
  (_holm_correction p !!! i == bonferroni p !!! i)%Q.
Proof.
  intros Hpos Hi Hmin. pose proof (argsort_perm p) as Hperm.
  pose proof (sorted_p_ascending p) as Hsorted.
  destruct (perm_surj _ _ Hperm i Hi) as (k & Hk & Hki).
  destruct (holm_by_rank p) as (_ & Hholm).
  pose proof (sorted_value_lookup p _ Hperm) as Hlook.
  assert (Htie : (take_indices p (argsort p) !!! k
                  <= take_indices p (argsort p) !!! 0%nat)%Q).
  { rewrite !Hlook by lia. rewrite Hki.
    apply Hmin, (perm_bound _ _ Hperm). lia. }
  destruct (tied_ranks_agree p _ Hperm Hsorted Hpos 0 k) as [Hh _];
    [lia | exact Hk | exact Htie |].
  rewrite bonferroni_lookup by exact Hi. rewrite <- Hki at 1.
  rewrite Hholm by exact Hk. rewrite Hh.
  cbn [Spec.floor_by_previous]. unfold Spec.holm_assigned.
  replace (Z.of_nat (length p) - Z.of_nat 0)%Z with (Z.of_nat (length p))
    by lia.
  assert (Heq : (take_indices p (argsort p) !!! 0%nat == p !!! i)%Q).
  { apply Qle_antisym.
    - rewrite <- Hki, <- (Hlook k Hk). apply argsort_value_le; lia.
    - rewrite <- Hki, <- (Hlook k Hk). exact Htie. }
  rewrite Q.min_comm.
  apply Qle_antisym; apply Q.min_le_compat_r; rewrite Heq; apply Qle_refl.
Qed.

Lemma smallest_p_gets_its_bonferroni_value_witness :
  (_holm_correction p_example !!! 1%nat == bonferroni p_example !!! 1%nat)%Q /\
  (_holm_correction p_example !!! 3%nat == bonferroni p_example !!! 3%nat)%Q.
Proof.
  split.
  - apply (smallest_p_gets_its_bonferroni_value p_example 1);
      [apply p_example_range | simpl; lia |].
    intros [|[|[|[|j]]]] Hj; try (simpl in Hj; lia); unfold Qle; simpl; lia.
  - apply (smallest_p_gets_its_bonferroni_value p_example 3);
      [apply p_example_range | simpl; lia |].
    intros [|[|[|[|j]]]] Hj; try (simpl in Hj; lia); unfold Qle; simpl; lia.
Defined.

(** With a single comparison each of the three methods returns the raw
    p-value (a p-value is at most 1). *)
Theorem single_comparison_is_unchanged (x : Q) :
  (x <= 1)%Q ->
  (exists b, bonferroni [x] = [b] /\ (b == x)%Q) /\
  (exists h, _holm_correction [x] = [h] /\ (h == x)%Q) /\
  (exists f, _fdr_correction [x] = [f] /\ (f == x)%Q).
Proof.
  intros Hx. split; [|split].
  - exists (Qmin (x * 1) 1). split; [reflexivity|].
    rewrite Q.min_l; [ring | lra].
  - destruct (holm_by_rank [x]) as (Hlen & Hk).
    specialize (Hk 0 ltac:(simpl; lia)).
    destruct (_holm_correction [x]) as [|h [|? ?]]; try discriminate Hlen.
    exists h. split; [reflexivity|].
    change (h = Qmin 1 (x * 1)) in Hk. rewrite Hk.
    rewrite Q.min_r; [ring | lra].
  - destruct (fdr_by_rank [x]) as (Hlen & Hk).
    specialize (Hk 0 ltac:(simpl; lia)).
    destruct (_fdr_correction [x]) as [|f [|? ?]]; try discriminate Hlen.
    exists f. split; [reflexivity|].
    change (f = Qmin 1 (x * 1 / 1)) in Hk. rewrite Hk.
    rewrite Q.min_r; [field | ].
    assert (Hq : (x * 1 / 1 == x)%Q) by field. lra.
Qed.

Lemma single_comparison_is_unchanged_witness :
  exists h, _holm_correction [0.03%Q] = [h] /\ (h == 0.03)%Q.
Proof.
  apply (single_comparison_is_unchanged 0.03%Q). unfold Qle. simpl. lia.
Defined.

(** ** Another tie order *)

Lemma any_sort_order_monotone_witness :
  (holm_monotone ties_swapped (length p_example)
     (holm_assign ties_swapped (take_indices p_example ties_swapped)
        (length p_example) (zeros_like p_example)) !!! 1%nat
   <= holm_monotone ties_swapped (length p_example)
        (holm_assign ties_swapped (take_indices p_example ties_swapped)
           (length p_example) (zeros_like p_example)) !!! 3%nat)%Q /\
  (fdr_loop ties_swapped (take_indices p_example ties_swapped)
     (length p_example) (zeros_like p_example) !!! 1%nat
   <= fdr_loop ties_swapped (take_indices p_example ties_swapped)
        (length p_example) (zeros_like p_example) !!! 3%nat)%Q.
Proof.
  apply (any_sort_order_monotone p_example ties_swapped).
  - apply (bool_decide_unpack _). vm_compute. exact I.
  - repeat constructor; unfold Qle; simpl; lia.
  - apply p_example_range.
  - simpl. lia.
  - simpl. lia.
  - unfold Qle. simpl. lia.
Defined.

(** ** Effect-size labels *)

Lemma Qltb_ge (x y : Q) : Qltb x y = false <-> (y <= x)%Q.
Proof.
  unfold Qltb. rewrite negb_false_iff. apply Qle_bool_iff.
Qed.

(** The label of an effect size [d] is "Unknown" exactly for NaN and
    otherwise goes by the magnitude: "Negligible" exactly for
    [|d| < 0.2], "Small" for [0.2 <= |d| < 0.5], "Medium" for
    [0.5 <= |d| < 0.8] and "Large" for [0.8 <= |d|]; [d] and [-d] have
    the same label. *)
Theorem effect_size_label_follows_magnitude :
  (forall d, _interpret_effect_size d = "Unknown" <-> d = None) /\
  (forall d, _interpret_effect_size (Some (- d))
             = _interpret_effect_size (Some d)) /\
  (forall d, _interpret_effect_size (Some d) = "Negligible"
             <-> (Qabs d < 0.2)%Q) /\
  (forall d, _interpret_effect_size (Some d) = "Small"
             <-> (0.2 <= Qabs d)%Q /\ (Qabs d < 0.5)%Q) /\
  (forall d, _interpret_effect_size (Some d) = "Medium"
             <-> (0.5 <= Qabs d)%Q /\ (Qabs d < 0.8)%Q) /\
  (forall d, _interpret_effect_size (Some d) = "Large"
             <-> (0.8 <= Qabs d)%Q).
Proof.
  assert (Hcases : forall d,
            (Qabs d < 0.2)%Q /\ _interpret_effect_size (Some d) = "Negligible"
            \/ ((0.2 <= Qabs d)%Q /\ (Qabs d < 0.5)%Q) /\
               _interpret_effect_size (Some d) = "Small"
            \/ ((0.5 <= Qabs d)%Q /\ (Qabs d < 0.8)%Q) /\
               _interpret_effect_size (Some d) = "Medium"
            \/ (0.8 <= Qabs d)%Q /\
               _interpret_effect_size (Some d) = "Large").
  { intros d. unfold _interpret_effect_size. cbv zeta.
    destruct (Qltb (Qabs d) 0.2) eqn:H1;
      [apply Qltb_lt in H1; left; auto | apply Qltb_ge in H1; right].
    destruct (Qltb (Qabs d) 0.5) eqn:H2;
      [apply Qltb_lt in H2; left; auto | apply Qltb_ge in H2; right].
    destruct (Qltb (Qabs d) 0.8) eqn:H3;
      [apply Qltb_lt in H3; left; auto | apply Qltb_ge in H3; right; auto]. }
  split; [|split; [|split; [|split; [|split]]]].
  - intros [d|]; split; try reflexivity; try discriminate.
    destruct (Hcases d) as [[_ H] | [[_ H] | [[_ H] | [_ H]]]];
      rewrite H; discriminate.
  - intros d. unfold _interpret_effect_size. cbv zeta.
    assert (Heq : Qabs (- d) = Qabs d).
    { destruct d as [[|n|n] den]; reflexivity. }
    rewrite Heq. reflexivity.
  - intros d.
    destruct (Hcases d) as [[H1 H] | [[[H1 H2] H] | [[[H1 H2] H] | [H1 H]]]];
      rewrite H; split; intros H'; try discriminate H'; try reflexivity;
      try assumption; lra.
  - intros d.
    destruct (Hcases d) as [[H1 H] | [[[H1 H2] H] | [[[H1 H2] H] | [H1 H]]]];
      rewrite H; split; intros H'; try discriminate H'; try reflexivity;
      try (split; assumption); lra.
  - intros d.
    destruct (Hcases d) as [[H1 H] | [[[H1 H2] H] | [[[H1 H2] H] | [H1 H]]]];
      rewrite H; split; intros H'; try discriminate H'; try reflexivity;
      try (split; assumption); lra.
  - intros d.
    destruct (Hcases d) as [[H1 H] | [[[H1 H2] H] | [[[H1 H2] H] | [H1 H]]]];
      rewrite H; split; intros H'; try discriminate H'; try reflexivity;
      try assumption; lra.
Qed.

End CorrectionProperties.

(** * Further properties of the Ct pipeline *)

Module PipelineProperties.
Import Analyzer AnalyzerFacts.

(** ** validate_data *)

Lemma filter_nil_iff {A} (P : A -> Prop) `{forall x, Decision (P x)}
    (l : list A) :
  filter P l = [] <-> forall x, x ∈ l -> ~ P x.
Proof.
  split.
  - intros Hnil x Hx HP.
    assert (Hin : x ∈ filter P l) by (apply list_elem_of_filter; auto).
    rewrite Hnil in Hin. apply elem_of_nil in Hin. exact Hin.
  - intros Hall. destruct (filter P l) as [|x l'] eqn:Hf; [reflexivity|].
    assert (Hin : x ∈ filter P l) by (rewrite Hf; left).
    apply list_elem_of_filter in Hin as [HP Hx]. destruct (Hall x Hx HP).
Qed.

(** [validate_data] rejects a table exactly for a missing Sample_ID,
    Gene, Condition or Ct_Value column.  With the four columns present it
    returns, whatever the Ct values are: the rows with a NaN, non-positive
    or above-40 Ct are counted in one warning and stay in the table, and
    an absent reference gene or control condition is a warning too. *)
Theorem validate_data_outcomes (self : qPCRAnalyzer) (raw : RawData) :
  raw_data self = Some raw ->
  ((exists col, col ∈ ["Sample_ID"; "Gene"; "Condition"; "Ct_Value"] /\
                (col ∉ columns raw)) ->
   exists msg, validate_data self = Raise (ValueError msg)) /\
  ((forall col, col ∈ ["Sample_ID"; "Gene"; "Condition"; "Ct_Value"] ->
                col ∈ columns raw) ->
   exists v,
     validate_data self = Ok v /\ valid v = true /\ missing_columns v = [] /\
     (forall n, invalid_ct_values n ∈ warnings v <->
        n = length (filter (fun m => invalid_ct (Ct_Value m)) (rows raw)) /\
        0 < n) /\
     (forall g, reference_gene_not_found g ∈ warnings v <->
        g = reference_gene self /\
        (reference_gene self ∉ Gene <$> rows raw)) /\
     (forall c, control_condition_not_found c ∈ warnings v <->
        c = control_condition self /\
        (control_condition self ∉ Condition <$> rows raw))).
Proof.
  intros Hraw. split.
  - intros (col & Hcol & Hmiss).
    apply (validate_data_missing_column self raw col); assumption.
  - intros Hall. unfold validate_data. rewrite Hraw. cbv zeta.
    assert (Hnone : filter (fun col => col ∉ columns raw)
                      ["Sample_ID"; "Gene"; "Condition"; "Ct_Value"] = []).
    { apply filter_nil_iff. intros col Hcol Hout. apply Hout, Hall, Hcol. }
    rewrite Hnone. cbn [length negb]. rewrite bool_decide_eq_true_2 by reflexivity.
    cbn [negb]. eexists. split; [reflexivity|]. cbn [valid missing_columns warnings].
    split; [reflexivity|]. split; [reflexivity|].
    set (invalid := filter (fun m => invalid_ct (Ct_Value m)) (rows raw)).
    split; [|split].
    + intros n. rewrite !elem_of_app.
      destruct (decide (reference_gene self ∈ Gene <$> rows raw));
        destruct (decide (control_condition self ∈ Condition <$> rows raw));
        destruct invalid as [|m l] eqn:Hinv; cbn [length];
        rewrite ?elem_of_nil, ?list_elem_of_singleton;
        (split; [intros [H|[H|H]]; try contradiction; try discriminate;
                 try (injection H as ->; split; [reflexivity | lia])
                | intros [-> Hpos]; try lia; auto]).
    + intros g. rewrite !elem_of_app.
      destruct (decide (reference_gene self ∈ Gene <$> rows raw));
        destruct (decide (control_condition self ∈ Condition <$> rows raw));
        destruct invalid as [|m l]; cbn [length];
        rewrite ?elem_of_nil, ?list_elem_of_singleton;
        (split; [intros [H|[H|H]]; try contradiction; try discriminate;
                 try (injection H as ->; split; [reflexivity | assumption])
                | intros [-> Hout]; try contradiction; auto]).
    + intros c. rewrite !elem_of_app.
      destruct (decide (reference_gene self ∈ Gene <$> rows raw));
        destruct (decide (control_condition self ∈ Condition <$> rows raw));
        destruct invalid as [|m l]; cbn [length];
        rewrite ?elem_of_nil, ?list_elem_of_singleton;
        (split; [intros [H|[H|H]]; try contradiction; try discriminate;
                 try (injection H as ->; split; [reflexivity | assumption])
                | intros [-> Hout]; try contradiction; auto]).
Qed.

Lemma validate_data_outcomes_witness :
  exists v, validate_data single_replicate = Ok v /\ valid v = true.
Proof.
  destruct (validate_data_outcomes single_replicate
              {| columns := all_columns;
                 rows := [measurement "S1" "IL6" "Control" "1" 22] |} eq_refl)
    as [_ Hok].
  destruct Hok as (v & Hv & Hvalid & _).
  - intros col Hcol. in_list.
  - exists v. split; assumption.
Defined.

(** A table with the four validated columns and no Biological_Rep
    column passes [validate_data] and then fails in the averaging step
    with KeyError 'Biological_Rep'. *)
Theorem validated_table_can_fail_averaging (self : qPCRAnalyzer)
    (raw : RawData) :
  raw_data self = Some raw ->
  (forall col, col ∈ ["Sample_ID"; "Gene"; "Condition"; "Ct_Value"] ->
               col ∈ columns raw) ->
  "Biological_Rep" ∉ columns raw ->
  (exists v, validate_data self = Ok v /\ valid v = true) /\
  calculate_technical_replicates_mean self
  = Raise (KeyError "Biological_Rep").
Proof.
  intros Hraw Hall Hmiss. split.
  - unfold validate_data. rewrite Hraw. cbv zeta.
    assert (Hnone : filter (fun col => col ∉ columns raw)
                      ["Sample_ID"; "Gene"; "Condition"; "Ct_Value"] = []).
    { apply filter_nil_iff. intros col Hcol Hout. apply Hout, Hall, Hcol. }
    rewrite Hnone. cbn [length negb].
    rewrite bool_decide_eq_true_2 by reflexivity. cbn [negb].
    eexists. split; reflexivity.
  - unfold calculate_technical_replicates_mean. rewrite Hraw. cbv zeta.
    destruct (select_columns_missing
                ["Sample_ID"; "Gene"; "Condition"; "Biological_Rep"]
                (columns raw) "Biological_Rep")
      as (missing & Hin & Hout & ->); [in_list | exact Hmiss |].
    cbn [bind]. do 2 f_equal.
    apply list_elem_of_In in Hin. simpl in Hin.
    destruct Hin as [<-|[<-|[<-|[<-|[]]]]]; try reflexivity;
      exfalso; apply Hout, Hall; in_list.
Qed.

Lemma validated_table_can_fail_averaging_witness :
  (exists v, validate_data no_biological_rep = Ok v /\ valid v = true) /\
  calculate_technical_replicates_mean no_biological_rep
  = Raise (KeyError "Biological_Rep").
Proof.
  apply (validated_table_can_fail_averaging no_biological_rep
           {| columns := ["Sample_ID"; "Gene"; "Condition"; "Ct_Value"];
              rows := [measurement "S1" "IL6" "Control" "" 22] |}).
  - reflexivity.
  - intros col Hcol. exact Hcol.
  - simpl. intros Hin. apply list_elem_of_In in Hin. simpl in Hin.
    intuition discriminate.
Defined.

(** ** The rows of [processed_data] *)

Lemma calculate_technical_replicates_mean_inv (self self' : qPCRAnalyzer)
    (processed : list ReplicateMean) :
  calculate_technical_replicates_mean self = Ok (self', processed) ->
  exists raw,
    raw_data self = Some raw /\
    processed = groupby_agg (rows raw) /\
    self' = set_processed_data processed self.
Proof.
  unfold calculate_technical_replicates_mean.
  destruct (raw_data self) as [raw|]; [|discriminate]. cbv zeta.
  destruct (select_columns _ (columns raw)) as [[]|]; cbn [bind]; [|discriminate].
  destruct (select_columns _ (columns raw)) as [[]|]; cbn [bind]; [|discriminate].
  intros [= <- <-]. exists raw. auto.
Qed.

Lemma groupby_agg_elem_of (data : list Measurement) (r : ReplicateMean) :
  r ∈ groupby_agg data <->
  exists k, k ∈ key_of <$> data /\ row_key r = k /\
            Ct_Mean r = mean (group_ct data k) /\
            Ct_Std r = std (group_ct data k) /\
            Tech_Rep_Count r = count (group_ct data k).
Proof.
  unfold groupby_agg. rewrite list_elem_of_fmap. split.
  - intros (k & -> & Hk). apply sorted_keys_elem_of in Hk.
    exists k. destruct k as [[[a b] c] d]. auto.
  - intros (k & Hk & Hkey & Hm & Hs & Hc). exists k.
    split; [|apply sorted_keys_elem_of, Hk].
    destruct r, k as [[[a b] c] d]. unfold row_key in Hkey.
    cbn in *. injection Hkey as -> -> -> ->. subst. reflexivity.
Qed.

Lemma count_group_ct (data : list Measurement) (k : key) :
  count (group_ct data k) = length (group_valid data k).
Proof.
  unfold count, group_ct, group_valid, dropna.
  induction data as [|m data IH]; [reflexivity|].
  rewrite !filter_cons. destruct (decide (key_of m = k)) as [Hk|Hk].
  - rewrite fmap_cons. cbn [omap list_omap].
    destruct (Ct_Value m) as [x|] eqn:Hct.
    + rewrite decide_True by (split; [exact Hk | eexists; reflexivity]).
      cbn [length]. rewrite IH. reflexivity.
    + rewrite decide_False by (intros [_ [? ?]]; discriminate). exact IH.
  - rewrite decide_False by tauto. exact IH.
Qed.

(** Every row of [processed_data] stands for a group of measurements.
    Its count is the number of measurements of the group whose Ct is not
    NaN; it has a mean exactly when that number is at least one and a
    standard deviation exactly when it is at least two; the standard
    deviation is never negative. *)
Theorem processed_row_invariants (self self' : qPCRAnalyzer)
    (raw : RawData) (processed : list ReplicateMean) (r : ReplicateMean) :
  raw_data self = Some raw ->
  calculate_technical_replicates_mean self = Ok (self', processed) ->
  r ∈ processed ->
  (exists m, m ∈ rows raw /\ key_of m = row_key r) /\
  Tech_Rep_Count r = length (group_valid (rows raw) (row_key r)) /\
  (is_Some (Ct_Mean r) <-> 1 <= length (group_valid (rows raw) (row_key r))) /\
  (is_Some (Ct_Std r) <-> 2 <= length (group_valid (rows raw) (row_key r))) /\
  (forall s, Ct_Std r = Some s -> (0 <= s)%R).
Proof.
  intros Hraw Hcall Hr.
  apply calculate_technical_replicates_mean_inv in Hcall
    as (raw' & Hraw' & -> & ->).
  rewrite Hraw in Hraw'. injection Hraw' as <-.
  apply groupby_agg_elem_of in Hr as (k & Hk & Hkey & Hm & Hs & Hc).
  rewrite Hkey, <- count_group_ct, Hm, Hs.
  split.
  { apply list_elem_of_fmap_1 in Hk as (m & -> & Hin). exists m. auto. }
  split; [exact Hc|].
  unfold mean, std, count. cbv zeta.
  split; [|split].
  - destruct (dropna (group_ct (rows raw) k)) as [|x v]; cbn [length].
    + split; [intros [? ?]; discriminate | lia].
    + split; [lia | intros _; eexists; reflexivity].
  - destruct (decide (length (dropna (group_ct (rows raw) k)) < 2)).
    + split; [intros [? ?]; discriminate | lia].
    + split; [lia | intros _; eexists; reflexivity].
  - intros s. destruct (decide (length (dropna (group_ct (rows raw) k)) < 2));
      [discriminate|]. intros [= <-]. apply sqrt_pos.
Qed.

Lemma processed_row_invariants_witness :
  exists self' r,
    calculate_technical_replicates_mean two_replicates = Ok (self', [r]) /\
    Tech_Rep_Count r = 2 /\ is_Some (Ct_Std r).
Proof.
  eexists _, _. split; [reflexivity|].
  destruct (processed_row_invariants two_replicates _
              {| columns := all_columns;
                 rows := [measurement "S1" "IL6" "Control" "1" 22;
                          measurement "S1" "IL6" "Control" "1" 22] |}
              _ _ eq_refl eq_refl (list_elem_of_here _ _))
    as (_ & Hcount & _ & Hstd & _).
  split; [exact Hcount|]. apply Hstd. vm_compute. lia.
Defined.

(** ** Groups partition the measurements *)

Lemma sum_list_with_indicator {K} `{EqDecision K} (k0 : K) (c : nat)
    (ks : list K) :
  NoDup ks -> k0 ∈ ks ->
  sum_list_with (fun k => if decide (k0 = k) then c else 0) ks = c.
Proof.
  induction 1 as [|k ks Hk Hnd IH]; intros Hin.
  - apply elem_of_nil in Hin. contradiction.
  - cbn [sum_list_with]. destruct (decide (k0 = k)) as [->|Hne].
    + assert (Hz : sum_list_with (fun k' => if decide (k = k') then c else 0) ks = 0).
      { clear IH Hin Hnd. induction ks as [|k' ks IH]; [reflexivity|].
        cbn [sum_list_with]. destruct (decide (k = k')) as [->|].
        - exfalso. apply Hk. left.
        - rewrite IH; [reflexivity|]. intros Hin. apply Hk. right. exact Hin. }
      rewrite Hz. lia.
    + apply elem_of_cons in Hin as [Heq|Hin]; [contradiction|].
      rewrite IH by exact Hin. lia.
Qed.

Lemma sum_list_with_plus {K} (f g : K -> nat) (ks : list K) :
  sum_list_with (fun k => f k + g k) ks
  = sum_list_with f ks + sum_list_with g ks.
Proof. induction ks as [|k ks IH]; cbn [sum_list_with]; lia. Qed.

Lemma sum_list_with_ext {K} (f g : K -> nat) (ks : list K) :
  (forall k, f k = g k) -> sum_list_with f ks = sum_list_with g ks.
Proof.
  intros Hfg. induction ks as [|k ks IH]; cbn [sum_list_with]; [reflexivity|].
  rewrite Hfg, IH. reflexivity.
Qed.

(** Summing a weight group by group gives the sum over all rows, when
    the keys are distinct and every row has its key among them. *)
Lemma partition_sum {A K} `{EqDecision K} (key : A -> K) (w : A -> nat)
    (ks : list K) (l : list A) :
  NoDup ks -> (forall a, a ∈ l -> key a ∈ ks) ->
  sum_list_with (fun k => sum_list_with w (filter (fun a => key a = k) l)) ks
  = sum_list_with w l.
Proof.
  intros Hnd. induction l as [|a l IH]; intros Hall.
  - cbn [sum_list_with]. clear. induction ks as [|k ks IHks]; [reflexivity|].
    cbn [sum_list_with]. rewrite IHks. reflexivity.
  - cbn [sum_list_with].
    rewrite <- IH by (intros b Hb; apply Hall; right; exact Hb).
    rewrite <- (sum_list_with_indicator (key a) (w a) ks Hnd)
      by (apply Hall; left).
    rewrite <- sum_list_with_plus. apply sum_list_with_ext. intros k.
    rewrite filter_cons. destruct (decide (key a = k)); reflexivity.
Qed.

Lemma count_as_sum (data : list Measurement) :
  count (Ct_Value <$> data)
  = sum_list_with (fun m => if notna (Ct_Value m) then 1 else 0) data.
Proof.
  unfold count, dropna. induction data as [|m data IH]; [reflexivity|].
  cbn [fmap list_fmap omap list_omap sum_list_with].
  destruct (Ct_Value m); cbn [notna length]; rewrite IH; reflexivity.
Qed.

Lemma sorted_keys_NoDup {A} `{EqDecision A} (le : relation A)
    `{forall a b, Decision (le a b)} (l : list A) :
  NoDup (sorted_keys le l).
Proof.
  unfold sorted_keys.
  apply (NoDup_Permutation_proper _ _ (merge_sort_Permutation le _)).
  apply NoDup_remove_dups.
Qed.

Lemma groupby_agg_keys (data : list Measurement) :
  row_key <$> groupby_agg data = sorted_keys key_le (key_of <$> data).
Proof.
  unfold groupby_agg. rewrite <- list_fmap_compose.
  transitivity ((fun k : key => k) <$> sorted_keys key_le (key_of <$> data));
    [|apply list_fmap_id].
  apply list_fmap_ext. intros i [[[a b] c] d] _. reflexivity.
Qed.

Lemma groupby_agg_counts (data : list Measurement) :
  Tech_Rep_Count <$> groupby_agg data
  = (fun k => count (group_ct data k))
    <$> sorted_keys key_le (key_of <$> data).
Proof.
  unfold groupby_agg. rewrite <- list_fmap_compose.
  apply list_fmap_ext. intros i [[[a b] c] d] _. reflexivity.
Qed.

Lemma sum_list_with_fmap {A B} (f : A -> B) (g : B -> nat) (l : list A) :
  sum_list_with g (f <$> l) = sum_list_with (fun a => g (f a)) l.
Proof. induction l as [|a l IH]; cbn; [reflexivity|]. rewrite IH. reflexivity. Qed.

(** The averaging step returns one row per distinct key, a row for the
    key of every measurement and no other, and the counts of the rows
    add up to the number of measurements whose Ct is not NaN: no
    measurement is dropped or counted twice. *)
Theorem groups_partition_measurements (self : qPCRAnalyzer) (raw : RawData) :
  raw_data self = Some raw ->
  (forall col,
     col ∈ ["Sample_ID"; "Gene"; "Condition"; "Biological_Rep"; "Ct_Value"] ->
     col ∈ columns raw) ->
  exists processed,
    calculate_technical_replicates_mean self
    = Ok (set_processed_data processed self, processed) /\
    NoDup (row_key <$> processed) /\
    (forall k, k ∈ row_key <$> processed <-> k ∈ key_of <$> rows raw) /\
    sum_list_with Tech_Rep_Count processed = count (Ct_Value <$> rows raw).
Proof.
  intros Hraw Hcols. exists (groupby_agg (rows raw)). split.
  { unfold calculate_technical_replicates_mean. rewrite Hraw.
    rewrite select_columns_ok
      by (intros c Hc; apply Hcols; clear -Hc; in_list).
    cbn [bind].
    rewrite select_columns_ok
      by (intros c Hc; apply Hcols; clear -Hc; in_list).
    reflexivity. }
  rewrite groupby_agg_keys. split; [apply sorted_keys_NoDup|].
  split; [intros k; apply sorted_keys_elem_of|].
  transitivity (sum_list_with (fun n : nat => n)
                  (Tech_Rep_Count <$> groupby_agg (rows raw))).
  { rewrite sum_list_with_fmap. reflexivity. }
  rewrite groupby_agg_counts, sum_list_with_fmap, count_as_sum.
  rewrite <- (partition_sum key_of
                (fun m => if notna (Ct_Value m) then 1 else 0)
                (sorted_keys key_le (key_of <$> rows raw)) (rows raw)).
  - apply sum_list_with_ext. intros k. unfold group_ct. apply count_as_sum.
  - apply sorted_keys_NoDup.
  - intros m Hm. apply sorted_keys_elem_of, list_elem_of_fmap_2, Hm.
Qed.

Lemma groups_partition_measurements_witness :
  exists processed,
    calculate_technical_replicates_mean two_replicates
    = Ok (set_processed_data processed two_replicates, processed) /\
    sum_list_with Tech_Rep_Count processed = 2.
Proof.
  destruct (groups_partition_measurements two_replicates
              {| columns := all_columns;
                 rows := [measurement "S1" "IL6" "Control" "1" 22;
                          measurement "S1" "IL6" "Control" "1" 22] |} eq_refl)
    as (processed & Hcall & _ & _ & Hsum).
  - intros col Hcol. in_list.
  - exists processed. split; [exact Hcall | exact Hsum].
Defined.

(** ** calculate_delta_ct *)

Lemma pivot_genes_elem_of (data : list ReplicateMean) (gene : string) :
  gene ∈ sorted_keys string_le (snd <$> pivot_entries data) <->
  exists r, r ∈ data /\ rm_Gene r = gene /\
            notna (pivot_cell data (index_of r) gene) = true.
Proof.
  rewrite sorted_keys_elem_of, list_elem_of_fmap. unfold pivot_entries. split.
  - intros ([i g] & -> & He). apply list_elem_of_filter in He as [Hna He].
    apply elem_of_remove_dups, list_elem_of_fmap_1 in He as (r & [= -> ->] & Hr).
    exists r. auto.
  - intros (r & Hr & <- & Hna). exists (index_of r, rm_Gene r).
    split; [reflexivity|]. apply list_elem_of_filter. split; [exact Hna|].
    apply elem_of_remove_dups.
    apply (list_elem_of_fmap_2 (fun r => (index_of r, rm_Gene r))), Hr.
Qed.

Lemma notna_is_Some (x : float) : notna x = true <-> is_Some x.
Proof.
  destruct x; cbn; split; try (intros; eexists; reflexivity); auto.
  - discriminate.
  - intros [? ?]; discriminate.
Qed.

Lemma pivot_cell_notna (data : list ReplicateMean) (r : ReplicateMean) :
  r ∈ data -> is_Some (Ct_Mean r) ->
  notna (pivot_cell data (index_of r) (rm_Gene r)) = true.
Proof.
  intros Hr [x Hx]. apply notna_is_Some. unfold pivot_cell.
  apply (mean_is_Some _ x). rewrite <- Hx.
  apply (list_elem_of_fmap_2 Ct_Mean), list_elem_of_filter. auto.
Qed.

(** [calculate_delta_ct] on averaged data that is not empty raises
    ValueError when no row is of the reference gene, and returns when a
    row of the reference gene has a mean Ct.  Gene names that coincide
    with the names of the index columns are excluded. *)
Theorem reference_gene_decides_delta_ct (self : qPCRAnalyzer)
    (data : list ReplicateMean) :
  processed_data self = Some data ->
  (forall r, r ∈ data ->
     (rm_Gene r ∉ ["Sample_ID"; "Condition"; "Biological_Rep"])) ->
  (reference_gene self ∉ ["Sample_ID"; "Condition"; "Biological_Rep"]) ->
  (data <> [] -> (reference_gene self ∉ rm_Gene <$> data) ->
   calculate_delta_ct self
   = Raise (ValueError ("Reference gene '" +:+ reference_gene self
                        +:+ "' not found in data"))) /\
  ((exists r, r ∈ data /\ rm_Gene r = reference_gene self /\
              is_Some (Ct_Mean r)) ->
   exists out,
     calculate_delta_ct self = Ok (set_delta_ct_data out self, out)).
Proof.
  intros Hdata _ _. unfold calculate_delta_ct. rewrite Hdata.
  cbn [bind]. rewrite Hdata. cbn [from_option]. unfold Datatypes.id.
  cbv zeta. split.
  - intros _ Hout.
    destruct (decide (reference_gene self
                      ∈ sorted_keys string_le (snd <$> pivot_entries data)))
      as [Hin|]; [|reflexivity].
    exfalso. apply pivot_genes_elem_of in Hin as (r & Hr & Hg & _).
    apply Hout. rewrite <- Hg. apply list_elem_of_fmap_2, Hr.
  - intros (r & Hr & Hg & Hmean).
    destruct (decide (reference_gene self
                      ∈ sorted_keys string_le (snd <$> pivot_entries data)))
      as [|Hout]; [eexists; reflexivity|].
    exfalso. apply Hout, pivot_genes_elem_of. exists r.
    split; [exact Hr|]. split; [exact Hg|].
    rewrite <- Hg. apply pivot_cell_notna; assumption.
Qed.

Lemma not_index_name (gene : string) :
  gene = "GAPDH" \/ gene = "IL6" ->
  gene ∉ ["Sample_ID"; "Condition"; "Biological_Rep"].
Proof.
  intros Hg Hin. apply list_elem_of_In in Hin. simpl in Hin.
  destruct Hg as [-> | ->]; intuition discriminate.
Qed.

Lemma reference_gene_decides_delta_ct_witness :
  exists out,
    calculate_delta_ct il6_and_gapdh
    = Ok (set_delta_ct_data out il6_and_gapdh, out).
Proof.
  apply (reference_gene_decides_delta_ct il6_and_gapdh il6_and_gapdh_rows).
  - reflexivity.
  - intros r Hr. apply not_index_name.
    apply list_elem_of_In in Hr. simpl in Hr.
    destruct Hr as [<- | [<- | []]]; auto.
  - apply not_index_name. left. reflexivity.
  - exists (replicate_mean "S1" "GAPDH" "Control" "1" 18).
    split; [left|]. split; [reflexivity|]. eexists. reflexivity.
Defined.

(** Called without averaged data, [calculate_delta_ct] averages first and
    then runs on the result. *)
Lemma calculate_delta_ct_lazy (self : qPCRAnalyzer) :
  processed_data self = None ->
  calculate_delta_ct self
  = bind (calculate_technical_replicates_mean self)
         (fun r => calculate_delta_ct r.1).
Proof.
  intros Hnone. unfold calculate_delta_ct at 1. rewrite Hnone.
  destruct (calculate_technical_replicates_mean self) as [[s p]|e] eqn:Hcall;
    cbn [bind]; [|reflexivity].
  apply calculate_technical_replicates_mean_inv in Hcall as (raw & _ & _ & ->).
  reflexivity.
Qed.

(** The rows that the loops append. *)
Lemma calculate_delta_ct_rows (self self' : qPCRAnalyzer)
    (data : list ReplicateMean) (out : list DeltaCt) :
  processed_data self = Some data ->
  calculate_delta_ct self = Ok (self', out) ->
  self' = set_delta_ct_data out self /\
  forall d, d ∈ out ->
    Target_Ct d = pivot_cell data (dc_index d) (dc_Target_Gene d) /\
    Reference_Ct d = pivot_cell data (dc_index d) (reference_gene self) /\
    notna (Target_Ct d) = true /\ notna (Reference_Ct d) = true /\
    Delta_Ct d = fsub (Target_Ct d) (Reference_Ct d) /\
    Reference_Gene d = reference_gene self /\
    (dc_Target_Gene d ∉ ["Sample_ID"; "Condition"; "Biological_Rep";
                          reference_gene self]).
Proof.
  intros Hdata. unfold calculate_delta_ct. rewrite Hdata.
  cbn [bind]. rewrite Hdata. cbn [from_option]. unfold Datatypes.id.
  cbv zeta.
  destruct (decide (reference_gene self
                    ∈ sorted_keys string_le (snd <$> pivot_entries data)));
    [|discriminate].
  intros [= <- <-]. split; [reflexivity|].
  intros d Hd. apply list_elem_of_In, in_flat_map in Hd as (row & _ & Hd).
  apply in_flat_map in Hd as (gene & Hgene & Hd).
  apply list_elem_of_In, list_elem_of_filter in Hgene as [Hgene _].
  destruct (notna (pivot_cell data row (reference_gene self))) eqn:Href;
    destruct (notna (pivot_cell data row gene)) eqn:Htgt;
    cbn [andb] in Hd; try (destruct Hd; fail).
  destruct Hd as [<- | []]. destruct row as [[sample condition] rep].
  unfold dc_index.
  cbn [Target_Ct Reference_Ct Delta_Ct Reference_Gene dc_Target_Gene
       dc_Sample_ID dc_Condition dc_Biological_Rep fst snd].
  auto 10.
Qed.

(** Every row that [calculate_delta_ct] returns has a target and a
    reference Ct that are not NaN, holds their difference as Delta_Ct,
    names the analyzer's reference gene, and is of a target gene other
    than the reference gene; the table is stored on the analyzer. *)
Theorem delta_ct_rows_well_formed (self self' : qPCRAnalyzer)
    (out : list DeltaCt) (d : DeltaCt) :
  calculate_delta_ct self = Ok (self', out) ->
  d ∈ out ->
  delta_ct_data self' = Some out /\
  Reference_Gene d = reference_gene self /\
  dc_Target_Gene d <> reference_gene self /\
  exists target reference,
    Target_Ct d = Some target /\ Reference_Ct d = Some reference /\
    Delta_Ct d = Some (target - reference)%R.
Proof.
  intros Hcall Hd.
  assert (Hrows : exists self0 data,
             reference_gene self0 = reference_gene self /\
             processed_data self0 = Some data /\
             calculate_delta_ct self0 = Ok (self', out)).
  { destruct (processed_data self) as [data|] eqn:Hdata.
    - exists self, data. auto.
    - rewrite (calculate_delta_ct_lazy self Hdata) in Hcall.
      destruct (calculate_technical_replicates_mean self) as [[s p]|e] eqn:Hmean;
        cbn [bind fst] in Hcall; [|discriminate].
      apply calculate_technical_replicates_mean_inv in Hmean
        as (raw & _ & _ & ->).
      exists (set_processed_data p self), p. auto. }
  destruct Hrows as (self0 & data & Href & Hdata & Hcall0).
  destruct (calculate_delta_ct_rows self0 self' data out Hdata Hcall0)
    as [-> Hall].
  destruct (Hall d Hd) as (Ht & Hr & Hnt & Hnr & Hdelta & Hname & Hgene).
  rewrite Href in Hname, Hgene.
  split; [reflexivity|]. split; [exact Hname|]. split.
  - intros Heq. apply Hgene. rewrite Heq.
    apply list_elem_of_In. simpl. auto.
  - destruct (Target_Ct d) as [t|]; [|discriminate].
    destruct (Reference_Ct d) as [r|]; [|discriminate].
    exists t, r. auto.
Qed.

Lemma delta_ct_rows_well_formed_witness :
  exists self' d,
    calculate_delta_ct il6_and_gapdh = Ok (self', [d]) /\
    dc_Target_Gene d = "IL6" /\ dc_Target_Gene d <> "GAPDH".
Proof.
  eexists _, _. split; [reflexivity|]. split; [reflexivity|].
  refine (proj1 (proj2 (proj2
            (delta_ct_rows_well_formed il6_and_gapdh _ _ _ eq_refl _)))).
  left.
Defined.

(** ** From measurements to delta-Ct *)

Lemma filter_unique_key {A K} `{EqDecision K} (f : A -> K) (k : K)
    (l : list A) :
  NoDup (f <$> l) ->
  filter (fun x => f x = k) l = [] \/
  exists x, x ∈ l /\ f x = k /\ filter (fun x => f x = k) l = [x].
Proof.
  induction l as [|a l IH]; intros Hnd; [left; reflexivity|].
  rewrite fmap_cons in Hnd. apply NoDup_cons in Hnd as [Ha Hnd].
  rewrite filter_cons. destruct (decide (f a = k)) as [Hk|Hk].
  - right. exists a. split; [left|]. split; [exact Hk|]. f_equal.
    apply filter_nil_iff. intros x Hx Hfx. apply Ha. rewrite Hk, <- Hfx.
    apply list_elem_of_fmap_2, Hx.
  - destruct (IH Hnd) as [Hnil | (x & Hx & Hfx & Hone)]; [left; exact Hnil|].
    right. exists x. split; [right; exact Hx|]. auto.
Qed.

Lemma mean_singleton (x : float) : mean [x] = x.
Proof.
  destruct x as [v|]; [|reflexivity]. unfold mean. cbn. f_equal. field.
Qed.

(** A cell of the pivot table of freshly averaged data is the mean of the
    technical replicates of its group. *)
Lemma pivot_cell_groupby_agg (data : list Measurement) (i : index)
    (gene : string) :
  pivot_cell (groupby_agg data) i gene
  = mean (group_ct data (i.1.1, gene, i.1.2, i.2))
    \/ pivot_cell (groupby_agg data) i gene = None.
Proof.
  unfold pivot_cell.
  rewrite (list_filter_iff _ (fun r => row_key r = (i.1.1, gene, i.1.2, i.2))).
  2:{ intros r. unfold index_of, row_key. destruct i as [[a b] c]. cbn.
      split; [intros [[= <- <- <-] <-]; reflexivity
             | intros [= <- <- <- <-]; auto]. }
  destruct (filter_unique_key row_key (i.1.1, gene, i.1.2, i.2)
              (groupby_agg data)) as [-> | (r & Hr & Hk & ->)].
  - rewrite groupby_agg_keys. apply sorted_keys_NoDup.
  - right. reflexivity.
  - left. cbn [fmap list_fmap]. rewrite mean_singleton.
    apply groupby_agg_elem_of in Hr as (k & _ & Hkey & Hm & _).
    rewrite Hm. congruence.
Qed.

(** Starting from measurements, every Delta_Ct is the mean Ct of the
    technical replicates of the target gene minus the mean Ct of the
    technical replicates of the reference gene, both taken in the row's
    own sample, condition and biological replicate. *)
Theorem delta_ct_is_difference_of_replicate_means (self self' : qPCRAnalyzer)
    (raw : RawData) (out : list DeltaCt) (d : DeltaCt) :
  raw_data self = Some raw ->
  processed_data self = None ->
  calculate_delta_ct self = Ok (self', out) ->
  d ∈ out ->
  Target_Ct d
  = mean (group_ct (rows raw)
            (dc_Sample_ID d, dc_Target_Gene d, dc_Condition d,
             dc_Biological_Rep d)) /\
  Reference_Ct d
  = mean (group_ct (rows raw)
            (dc_Sample_ID d, reference_gene self, dc_Condition d,
             dc_Biological_Rep d)) /\
  Delta_Ct d = fsub (Target_Ct d) (Reference_Ct d).
Proof.
  intros Hraw Hnone Hcall Hd.
  rewrite (calculate_delta_ct_lazy self Hnone) in Hcall.
  destruct (calculate_technical_replicates_mean self) as [[s p]|e] eqn:Hmean;
    cbn [bind fst] in Hcall; [|discriminate].
  apply calculate_technical_replicates_mean_inv in Hmean
    as (raw' & Hraw' & -> & ->).
  rewrite Hraw in Hraw'. injection Hraw' as <-.
  destruct (calculate_delta_ct_rows
              (set_processed_data (groupby_agg (rows raw)) self) self'
              (groupby_agg (rows raw)) out eq_refl Hcall) as [_ Hall].
  destruct (Hall d Hd) as (Ht & Hr & Hnt & Hnr & Hdelta & _ & _).
  cbn [reference_gene set_processed_data] in Hr.
  split; [|split; [|exact Hdelta]].
  - destruct (pivot_cell_groupby_agg (rows raw) (dc_index d) (dc_Target_Gene d))
      as [Heq | Heq]; rewrite Heq in Ht.
    + exact Ht.
    + rewrite Ht in Hnt. discriminate.
  - destruct (pivot_cell_groupby_agg (rows raw) (dc_index d) (reference_gene self))
      as [Heq | Heq]; rewrite Heq in Hr.
    + exact Hr.
    + rewrite Hr in Hnr. discriminate.
Qed.

Lemma delta_ct_is_difference_of_replicate_means_witness :
  exists self' d,
    calculate_delta_ct (analyzer_of il6_and_gapdh_raw) = Ok (self', [d]) /\
    Target_Ct d
    = mean (group_ct (rows il6_and_gapdh_raw) ("S1", "IL6", "Control", "1")).
Proof.
  eexists _, _. split; [reflexivity|].
  refine (proj1 (delta_ct_is_difference_of_replicate_means
                   (analyzer_of il6_and_gapdh_raw) _ il6_and_gapdh_raw _ _
                   eq_refl eq_refl eq_refl _)).
  left.
Defined.

(** ** One delta-Ct row per sample and target gene *)

Lemma flat_map_keys_NoDup {A B C} (key : C -> A * B) (f : A -> B -> list C)
    (la : list A) (lb : list B) :
  (forall a b c, c ∈ f a b -> key c = (a, b)) ->
  (forall a b, NoDup (key <$> f a b)) ->
  NoDup la -> NoDup lb ->
  NoDup (key <$> flat_map (fun a => flat_map (f a) lb) la).
Proof.
  intros Hkey Hone Hla Hlb.
  assert (Hin : forall a l c, c ∈ flat_map (f a) l ->
                  exists b, b ∈ l /\ key c = (a, b)).
  { intros a l c Hc. apply list_elem_of_In, in_flat_map in Hc as (b & Hb & Hc).
    exists b. split; [apply list_elem_of_In, Hb|].
    apply (Hkey a b), list_elem_of_In, Hc. }
  assert (Hinner : forall a, NoDup (key <$> flat_map (f a) lb)).
  { intros a. induction Hlb as [|b lb Hb Hlb IH]; [constructor|].
    cbn [flat_map]. rewrite fmap_app. apply NoDup_app.
    split; [apply Hone|]. split; [|exact IH].
    intros k Hk1 Hk2.
    apply list_elem_of_fmap_1 in Hk1 as (c1 & -> & Hc1).
    apply list_elem_of_fmap_1 in Hk2 as (c2 & Heq & Hc2).
    apply Hin in Hc2 as (b2 & Hb2 & Hk2).
    rewrite (Hkey a b c1 Hc1), Hk2 in Heq. injection Heq as ->.
    contradiction. }
  induction Hla as [|a la Ha Hla IH]; [constructor|].
  cbn [flat_map]. rewrite fmap_app. apply NoDup_app.
  split; [apply Hinner|]. split; [|exact IH].
  intros k Hk1 Hk2.
  apply list_elem_of_fmap_1 in Hk1 as (c1 & -> & Hc1).
  apply list_elem_of_fmap_1 in Hk2 as (c2 & Heq & Hc2).
  apply Hin in Hc1 as (b1 & _ & Hk1).
  apply list_elem_of_In, in_flat_map in Hc2 as (a2 & Ha2 & Hc2).
  apply list_elem_of_In in Ha2, Hc2.
  apply Hin in Hc2 as (b2 & _ & Hk2).
  rewrite Hk1, Hk2 in Heq. injection Heq as -> ->. contradiction.
Qed.

(** [calculate_delta_ct] returns at most one row for a sample, condition,
    biological replicate and target gene, also when the averaged table
    holds several rows for them: the pivot table has averaged those. *)
Theorem delta_ct_rows_are_distinct (self self' : qPCRAnalyzer)
    (data : list ReplicateMean) (out : list DeltaCt) :
  processed_data self = Some data ->
  calculate_delta_ct self = Ok (self', out) ->
  NoDup ((fun d => (dc_index d, dc_Target_Gene d)) <$> out).
Proof.
  intros Hdata. unfold calculate_delta_ct. rewrite Hdata.
  cbn [bind]. rewrite Hdata. cbn [from_option]. unfold Datatypes.id.
  cbv zeta.
  destruct (decide (reference_gene self
                    ∈ sorted_keys string_le (snd <$> pivot_entries data)));
    [|discriminate].
  intros [= _ <-].
  apply (flat_map_keys_NoDup (fun d => (dc_index d, dc_Target_Gene d))
           (fun row target_gene =>
              if notna (pivot_cell data row (reference_gene self))
                 && notna (pivot_cell data row target_gene)
              then [ {| dc_Sample_ID := row.1.1; dc_Condition := row.1.2;
                        dc_Biological_Rep := row.2;
                        dc_Target_Gene := target_gene;
                        Reference_Gene := reference_gene self;
                        Target_Ct := pivot_cell data row target_gene;
                        Reference_Ct :=
                          pivot_cell data row (reference_gene self);
                        Delta_Ct :=
                          fsub (pivot_cell data row target_gene)
                               (pivot_cell data row (reference_gene self)) |} ]
              else [])).
  - intros row gene c Hc.
    destruct (notna (pivot_cell data row (reference_gene self))
              && notna (pivot_cell data row gene)).
    + apply list_elem_of_singleton in Hc as ->.
      destruct row as [[a b] c]. reflexivity.
    + apply elem_of_nil in Hc. contradiction.
  - intros row gene.
    destruct (notna (pivot_cell data row (reference_gene self))
              && notna (pivot_cell data row gene)); cbn.
    + apply NoDup_singleton.
    + constructor.
  - apply sorted_keys_NoDup.
  - apply NoDup_filter, sorted_keys_NoDup.
Qed.

Lemma delta_ct_rows_are_distinct_witness :
  exists self' out,
    calculate_delta_ct
      (averaged (il6_and_gapdh_rows ++ [replicate_mean "S1" "IL6" "Control" "1" 24]))
    = Ok (self', out) /\
    NoDup ((fun d => (dc_index d, dc_Target_Gene d)) <$> out).
Proof.
  eexists _, _. split; [reflexivity|].
  apply (delta_ct_rows_are_distinct
           (averaged (il6_and_gapdh_rows
                      ++ [replicate_mean "S1" "IL6" "Control" "1" 24]))
           _ _ _ eq_refl eq_refl).
Defined.

(** ** The lazy chain and what a call leaves in place *)

Lemma calculate_delta_ct_frame (self self' : qPCRAnalyzer)
    (out : list DeltaCt) :
  calculate_delta_ct self = Ok (self', out) ->
  reference_gene self' = reference_gene self /\
  control_condition self' = control_condition self /\
  raw_data self' = raw_data self /\
  delta_ct_data self' = Some out /\
  delta_delta_ct_data self' = delta_delta_ct_data self /\
  (forall p, processed_data self = Some p -> processed_data self' = Some p).
Proof.
  intros Hcall. destruct (processed_data self) as [data|] eqn:Hdata.
  - destruct (calculate_delta_ct_rows self self' data out Hdata Hcall)
      as [-> _].
    repeat split. intros p [= <-]. exact Hdata.
  - rewrite (calculate_delta_ct_lazy self Hdata) in Hcall.
    destruct (calculate_technical_replicates_mean self) as [[s p]|e] eqn:Hmean;
      cbn [bind fst] in Hcall; [|discriminate].
    apply calculate_technical_replicates_mean_inv in Hmean
      as (raw & _ & _ & ->).
    destruct (calculate_delta_ct_rows (set_processed_data p self) self' p out
                eq_refl Hcall) as [-> _].
    repeat split. intros p0 [=].
Qed.

(** Called without a delta-Ct table, [calculate_delta_delta_ct] computes
    it first and then runs on the result. *)
Lemma calculate_delta_delta_ct_lazy (self : qPCRAnalyzer) :
  delta_ct_data self = None ->
  calculate_delta_delta_ct self
  = bind (calculate_delta_ct self) (fun r => calculate_delta_delta_ct r.1).
Proof.
  intros Hnone. unfold calculate_delta_delta_ct at 1. rewrite Hnone.
  destruct (calculate_delta_ct self) as [[s out]|e] eqn:Hcall;
    cbn [bind fst]; [|reflexivity].
  apply calculate_delta_ct_frame in Hcall as (_ & _ & _ & Hd & _).
  unfold calculate_delta_delta_ct. rewrite Hd. cbn [bind]. rewrite Hd.
  reflexivity.
Qed.

Lemma calculate_delta_delta_ct_cached (self self' : qPCRAnalyzer)
    (data : list DeltaCt) (out : list DeltaDeltaCt) :
  delta_ct_data self = Some data ->
  calculate_delta_delta_ct self = Ok (self', out) ->
  data <> [] /\
  self' = set_delta_delta_ct_data out self /\
  out = delta_delta_ct_results
          (control_means
             (filter (fun r => dc_Condition r = control_condition self) data))
          data.
Proof.
  intros Hdata Hcall. destruct data as [|r data].
  - unfold calculate_delta_delta_ct in Hcall. rewrite Hdata in Hcall.
    cbn [bind] in Hcall. rewrite Hdata in Hcall. discriminate.
  - rewrite (calculate_delta_delta_ct_ok self _ Hdata) in Hcall by discriminate.
    cbv zeta in Hcall. injection Hcall as <- <-. auto.
Qed.

Lemma calculate_delta_delta_ct_inv (self self' : qPCRAnalyzer)
    (out : list DeltaDeltaCt) :
  calculate_delta_delta_ct self = Ok (self', out) ->
  exists self0 data,
    (delta_ct_data self = Some data /\ self0 = self \/
     delta_ct_data self = None /\ calculate_delta_ct self = Ok (self0, data)) /\
    data <> [] /\
    self' = set_delta_delta_ct_data out self0 /\
    out = delta_delta_ct_results
            (control_means
               (filter (fun r => dc_Condition r = control_condition self) data))
            data.
Proof.
  intros Hcall. destruct (delta_ct_data self) as [data|] eqn:Hdata.
  - exists self, data. split; [left; auto|].
    apply calculate_delta_delta_ct_cached; assumption.
  - rewrite (calculate_delta_delta_ct_lazy self Hdata) in Hcall.
    destruct (calculate_delta_ct self) as [[s data]|e] eqn:Hdelta;
      cbn [bind fst] in Hcall; [|discriminate].
    exists s, data. split; [right; auto|].
    apply calculate_delta_ct_frame in Hdelta as (_ & Hc & _ & Hd & _).
    rewrite <- Hc. apply calculate_delta_delta_ct_cached; assumption.
Qed.

(** An error of an earlier step is the error of the later steps that
    have to run it: without averaged data [calculate_delta_ct] fails as
    the averaging fails, and without a delta-Ct table
    [calculate_delta_delta_ct] fails as [calculate_delta_ct] fails.  On an
    analyzer with nothing loaded both raise the ValueError of the
    averaging step. *)
Theorem errors_propagate (self : qPCRAnalyzer) (e : exception) :
  (processed_data self = None ->
   calculate_technical_replicates_mean self = Raise e ->
   calculate_delta_ct self = Raise e) /\
  (delta_ct_data self = None ->
   calculate_delta_ct self = Raise e ->
   calculate_delta_delta_ct self = Raise e) /\
  (raw_data self = None -> processed_data self = None ->
   delta_ct_data self = None ->
   calculate_delta_delta_ct self
   = Raise (ValueError "No data loaded. Please run load_data() first.")).
Proof.
  split; [|split].
  - intros Hnone Herr. rewrite (calculate_delta_ct_lazy self Hnone), Herr.
    reflexivity.
  - intros Hnone Herr. rewrite (calculate_delta_delta_ct_lazy self Hnone), Herr.
    reflexivity.
  - intros Hraw Hproc Hdelta.
    rewrite (calculate_delta_delta_ct_lazy self Hdelta).
    rewrite (calculate_delta_ct_lazy self Hproc).
    unfold calculate_technical_replicates_mean. rewrite Hraw. reflexivity.
Qed.

(** A successful [calculate_delta_delta_ct] stores its table and leaves
    the settings and the raw data as they were.  Tables that were already
    on the analyzer are used as they are and stay: with a delta-Ct table
    in place the result is the same on every analyzer that holds this
    table and this control condition, whatever its raw data, averaged
    data and reference gene are. *)
Theorem cached_tables_are_reused (self self' : qPCRAnalyzer)
    (out : list DeltaDeltaCt) :
  calculate_delta_delta_ct self = Ok (self', out) ->
  delta_delta_ct_data self' = Some out /\
  reference_gene self' = reference_gene self /\
  control_condition self' = control_condition self /\
  raw_data self' = raw_data self /\
  (forall p, processed_data self = Some p -> processed_data self' = Some p) /\
  (forall d, delta_ct_data self = Some d ->
     delta_ct_data self' = Some d /\
     processed_data self' = processed_data self /\
     forall other,
       delta_ct_data other = Some d ->
       control_condition other = control_condition self ->
       calculate_delta_delta_ct other
       = Ok (set_delta_delta_ct_data out other, out)).
Proof.
  intros Hcall.
  destruct (calculate_delta_delta_ct_inv self self' out Hcall)
    as (self0 & data & Hfrom & Hne & -> & Hout).
  cbn [delta_delta_ct_data reference_gene control_condition raw_data
       processed_data delta_ct_data set_delta_delta_ct_data].
  destruct Hfrom as [[Hdata ->] | [Hnone Hdelta]].
  - do 4 (split; [reflexivity|]). split; [auto|].
    intros d Hd. split; [exact Hd|]. split; [reflexivity|].
    intros other Hother Hcond. rewrite Hdata in Hd. injection Hd as <-.
    rewrite (calculate_delta_delta_ct_ok other data Hother Hne).
    cbv zeta. rewrite Hcond, <- Hout. reflexivity.
  - apply calculate_delta_ct_frame in Hdelta
      as (Href & Hcond & Hraw & Hd & _ & Hproc).
    split; [reflexivity|]. do 3 (split; [assumption|]).
    split; [exact Hproc|].
    intros d Hd'. rewrite Hnone in Hd'. discriminate.
Qed.

Lemma errors_propagate_witness :
  calculate_delta_delta_ct fresh_analyzer
  = Raise (ValueError "No data loaded. Please run load_data() first.").
Proof.
  apply (errors_propagate fresh_analyzer
           (ValueError "No data loaded. Please run load_data() first."));
    reflexivity.
Defined.

Lemma cached_tables_are_reused_witness :
  exists self' out,
    calculate_delta_delta_ct tnf_without_control = Ok (self', out) /\
    delta_delta_ct_data self' = Some out.
Proof.
  eexists _, _. split; [reflexivity|].
  apply (cached_tables_are_reused tnf_without_control _ _ eq_refl).
Defined.

(** ** A table without target genes *)

Lemma flat_map_all_nil {A B} (f : A -> list B) (l : list A) :
  (forall a, f a = []) -> flat_map f l = [].
Proof.
  intros Hf. induction l as [|a l IH]; [reflexivity|].
  cbn [flat_map]. rewrite Hf, IH. reflexivity.
Qed.

(** Averaged data that holds the reference gene only gives an empty
    delta-Ct table, without an error; [calculate_delta_delta_ct] on that
    analyzer then raises KeyError 'Condition', because the empty table has
    no columns. *)
Theorem only_reference_gene_fails_late (self : qPCRAnalyzer)
    (data : list ReplicateMean) :
  processed_data self = Some data ->
  delta_ct_data self = None ->
  (reference_gene self ∉ ["Sample_ID"; "Condition"; "Biological_Rep"]) ->
  (forall r, r ∈ data -> rm_Gene r = reference_gene self) ->
  (exists r, r ∈ data /\ is_Some (Ct_Mean r)) ->
  calculate_delta_ct self = Ok (set_delta_ct_data [] self, []) /\
  calculate_delta_delta_ct self = Raise (KeyError "Condition").
Proof.
  intros Hdata Hnone _ Hall (r & Hr & Hmean).
  assert (Hdelta : calculate_delta_ct self = Ok (set_delta_ct_data [] self, [])).
  { unfold calculate_delta_ct. rewrite Hdata.
    cbn [bind]. rewrite Hdata. cbn [from_option]. unfold Datatypes.id.
    cbv zeta.
    destruct (decide (reference_gene self
                      ∈ sorted_keys string_le (snd <$> pivot_entries data)))
      as [_|Hout].
    2:{ exfalso. apply Hout, pivot_genes_elem_of. exists r.
        split; [exact Hr|]. split; [apply Hall, Hr|].
        rewrite <- (Hall r Hr). apply pivot_cell_notna; assumption. }
    rewrite flat_map_all_nil; [reflexivity|].
    intros row. cbv beta.
    match goal with
    | |- flat_map _ ?target_genes = [] =>
        assert (Hnil : target_genes = []); [|rewrite Hnil; reflexivity]
    end.
    apply filter_nil_iff. intros gene Hgene Hnot. apply Hnot.
    apply pivot_genes_elem_of in Hgene as (r' & Hr' & <- & _).
    rewrite (Hall r' Hr'). apply list_elem_of_In. simpl. auto. }
  split; [exact Hdelta|].
  rewrite (calculate_delta_delta_ct_lazy self Hnone), Hdelta. reflexivity.
Qed.

Lemma only_reference_gene_fails_late_witness :
  calculate_delta_ct gapdh_only = Ok (set_delta_ct_data [] gapdh_only, []) /\
  calculate_delta_delta_ct gapdh_only = Raise (KeyError "Condition").
Proof.
  apply (only_reference_gene_fails_late gapdh_only gapdh_only_rows).
  - reflexivity.
  - reflexivity.
  - apply not_index_name. left. reflexivity.
  - intros r Hr. apply list_elem_of_In in Hr. simpl in Hr.
    destruct Hr as [<- | []]. reflexivity.
  - exists (replicate_mean "S1" "GAPDH" "Control" "1" 18).
    split; [left|]. eexists. reflexivity.
Defined.

(** ** The rows of one gene *)

Lemma filter_fmap_comm {A B} (f : A -> B) (P : B -> Prop)
    `{forall y, Decision (P y)} (l : list A) :
  filter P (f <$> l) = f <$> filter (fun x => P (f x)) l.
Proof.
  induction l as [|a l IH]; [reflexivity|].
  rewrite fmap_cons, !filter_cons.
  destruct (decide (P (f a))); rewrite IH; reflexivity.
Qed.

(** The output rows of one gene are the rows of that gene in the
    delta-Ct table, in their order, each against the gene's control
    mean. *)
Lemma results_of_gene (control_delta_ct : gmap string float)
    (data : list DeltaCt) (gene : string) :
  filter (fun o => ddc_Target_Gene o = gene)
         (delta_delta_ct_results control_delta_ct data)
  = delta_delta_ct_row (default None (control_delta_ct !! gene))
    <$> filter (fun r => dc_Target_Gene r = gene) data.
Proof.
  unfold delta_delta_ct_results.
  assert (Hgen : forall genes, NoDup genes ->
            filter (fun o => ddc_Target_Gene o = gene)
              (flat_map (fun target_gene =>
                 delta_delta_ct_row
                   (default None (control_delta_ct !! target_gene))
                 <$> filter (fun r => dc_Target_Gene r = target_gene) data)
                 genes)
            = if decide (gene ∈ genes)
              then delta_delta_ct_row (default None (control_delta_ct !! gene))
                   <$> filter (fun r => dc_Target_Gene r = gene) data
              else []).
  { induction 1 as [|g genes Hg Hnd IH].
    - rewrite decide_False by apply not_elem_of_nil. reflexivity.
    - cbn [flat_map]. rewrite filter_app, IH, filter_fmap_comm.
      cbn [delta_delta_ct_row ddc_Target_Gene].
      rewrite list_filter_filter.
      destruct (decide (g = gene)) as [->|Hne].
      + rewrite (decide_False (P := gene ∈ genes)) by exact Hg.
        rewrite (decide_True (P := gene ∈ gene :: genes)) by left.
        rewrite app_nil_r. f_equal. apply list_filter_iff. tauto.
      + rewrite (proj2 (filter_nil_iff _ data)).
        2:{ intros r _ [H1 H2]. apply Hne. congruence. }
        rewrite fmap_nil, app_nil_l.
        destruct (decide (gene ∈ genes)) as [Hin|Hout].
        * rewrite decide_True by (right; exact Hin). reflexivity.
        * rewrite decide_False; [reflexivity|].
          intros Hin. apply elem_of_cons in Hin as [Heq|Hin]; auto. }
  rewrite (Hgen _ (unique_NoDup _)).
  destruct (decide (gene ∈ unique (dc_Target_Gene <$> data))) as [_|Hout];
    [reflexivity|].
  rewrite (proj2 (filter_nil_iff _ data)); [reflexivity|].
  intros r Hr Hgene. apply Hout, unique_elem_of. rewrite <- Hgene.
  apply list_elem_of_fmap_2, Hr.
Qed.

Lemma flat_map_length {A B} (f : A -> list B) (l : list A) :
  length (flat_map f l) = sum_list_with (fun a => length (f a)) l.
Proof.
  induction l as [|a l IH]; [reflexivity|].
  cbn [flat_map sum_list_with]. rewrite length_app, IH. reflexivity.
Qed.

Lemma length_as_sum {A} (l : list A) :
  length l = sum_list_with (fun _ => 1) l.
Proof. induction l as [|a l IH]; cbn; [reflexivity|]. rewrite IH. reflexivity. Qed.

(** [calculate_delta_delta_ct] returns one row for every row of the
    delta-Ct table, none dropped and none added: the rows of each gene
    appear in their input order with sample, condition, biological
    replicate and Delta_Ct unchanged, and the table has as many rows as
    the delta-Ct table. *)
Theorem rows_are_kept_gene_by_gene (self self' : qPCRAnalyzer)
    (data : list DeltaCt) (out : list DeltaDeltaCt) :
  delta_ct_data self = Some data ->
  calculate_delta_delta_ct self = Ok (self', out) ->
  length out = length data /\
  forall gene,
    (fun o => (ddc_Sample_ID o, ddc_Condition o, ddc_Biological_Rep o,
               ddc_Target_Gene o, ddc_Delta_Ct o))
    <$> filter (fun o => ddc_Target_Gene o = gene) out
    = (fun r => (dc_Sample_ID r, dc_Condition r, dc_Biological_Rep r,
                 dc_Target_Gene r, Delta_Ct r))
      <$> filter (fun r => dc_Target_Gene r = gene) data.
Proof.
  intros Hdata Hcall.
  destruct (calculate_delta_delta_ct_cached self self' data out Hdata Hcall)
    as (_ & _ & ->).
  split.
  - unfold delta_delta_ct_results. rewrite flat_map_length.
    rewrite (length_as_sum data).
    rewrite <- (partition_sum dc_Target_Gene (fun _ => 1)
                  (unique (dc_Target_Gene <$> data)) data).
    + apply sum_list_with_ext. intros gene.
      rewrite length_fmap. apply length_as_sum.
    + apply unique_NoDup.
    + intros r Hr. apply unique_elem_of, list_elem_of_fmap_2, Hr.
  - intros gene. rewrite results_of_gene, <- list_fmap_compose.
    apply list_fmap_ext. intros i r _. reflexivity.
Qed.

Lemma rows_are_kept_gene_by_gene_witness :
  exists self' out,
    calculate_delta_delta_ct tnf_without_control = Ok (self', out) /\
    length out = 3.
Proof.
  eexists _, _. split; [reflexivity|].
  apply (rows_are_kept_gene_by_gene tnf_without_control _
           tnf_without_control_rows _ eq_refl eq_refl).
Defined.

(** ** Control rows and fold changes *)

(** [control_delta_ct.get(gene, nan)] is the mean over the control rows
    of the gene, NaN when there is none. *)
Lemma control_mean_is_mean (control_rows : list DeltaCt) (gene : string) :
  default None (control_means control_rows !! gene)
  = mean (Delta_Ct <$> filter (fun r => dc_Target_Gene r = gene) control_rows).
Proof.
  rewrite control_means_get.
  destruct (decide (gene ∈ dc_Target_Gene <$> control_rows)) as [_|Hout];
    [reflexivity|].
  rewrite (proj2 (filter_nil_iff _ control_rows)); [reflexivity|].
  intros r Hr Hgene. apply Hout. rewrite <- Hgene.
  apply list_elem_of_fmap_2, Hr.
Qed.

(** A gene with a single row under the control condition: the Delta_Ct
    of that row is the control mean of every row of the gene, and the
    control row itself gets Delta_Delta_Ct 0 and fold change 1. *)
Theorem single_control_row_is_the_baseline (self self' : qPCRAnalyzer)
    (data : list DeltaCt) (out : list DeltaDeltaCt) (gene : string)
    (c : DeltaCt) (v : R) :
  delta_ct_data self = Some data ->
  calculate_delta_delta_ct self = Ok (self', out) ->
  filter (fun r => dc_Target_Gene r = gene)
    (filter (fun r => dc_Condition r = control_condition self) data) = [c] ->
  Delta_Ct c = Some v ->
  (forall o, o ∈ out -> ddc_Target_Gene o = gene ->
     Control_Mean_Delta_Ct o = Some v) /\
  (forall o, o ∈ out -> ddc_Target_Gene o = gene ->
     ddc_Condition o = control_condition self ->
     ddc_Delta_Ct o = Some v /\
     Delta_Delta_Ct o = Some 0%R /\ Fold_Change o = Some 1%R).
Proof.
  intros Hdata Hcall Hone Hv.
  destruct (calculate_delta_delta_ct_cached self self' data out Hdata Hcall)
    as (_ & _ & ->).
  assert (Hmean : forall row, dc_Target_Gene row = gene ->
            default None
              (control_means
                 (filter (fun r => dc_Condition r = control_condition self)
                         data) !! dc_Target_Gene row) = Some v).
  { intros row ->. rewrite control_mean_is_mean, Hone.
    cbn [fmap list_fmap]. rewrite mean_singleton. exact Hv. }
  split.
  - intros o Ho Hgene. apply results_elem_of in Ho as (row & _ & ->).
    cbn [delta_delta_ct_row Control_Mean_Delta_Ct ddc_Target_Gene] in *.
    apply Hmean, Hgene.
  - intros o Ho Hgene Hcond. apply results_elem_of in Ho as (row & Hrow & ->).
    cbn [delta_delta_ct_row ddc_Delta_Ct Delta_Delta_Ct Fold_Change
         ddc_Target_Gene ddc_Condition] in *.
    rewrite (Hmean row Hgene).
    assert (Hin : row ∈ [c]).
    { rewrite <- Hone. apply list_elem_of_filter. split; [exact Hgene|].
      apply list_elem_of_filter. auto. }
    apply list_elem_of_singleton in Hin as ->. rewrite Hv.
    cbn [fsub notna fneg pow2 option_map].
    split; [reflexivity|]. split; f_equal; [lra|].
    replace (- (v - v))%R with 0%R by lra. apply Rpower_O. lra.
Qed.

Lemma single_control_row_is_the_baseline_witness :
  exists self' out,
    calculate_delta_delta_ct tnf_without_control = Ok (self', out) /\
    forall o, o ∈ out -> ddc_Target_Gene o = "IL6" ->
              Control_Mean_Delta_Ct o = Some (22 - 18)%R.
Proof.
  eexists _, _. split; [reflexivity|].
  apply (single_control_row_is_the_baseline tnf_without_control _
           tnf_without_control_rows _ "IL6"
           (delta_ct_row "S1" "Control" "1" "IL6" 22 18) (22 - 18)%R
           eq_refl eq_refl eq_refl eq_refl).
Defined.

(** A row with a defined Delta_Ct and a defined control mean has a fold
    change, which is at least 1 when the Delta_Ct is at most the control
    mean, exactly 1 when they are equal, and at most 1 when the Delta_Ct
    is at least the control mean. *)
Theorem fold_change_direction (self self' : qPCRAnalyzer)
    (out : list DeltaDeltaCt) (o : DeltaDeltaCt) (a m : R) :
  calculate_delta_delta_ct self = Ok (self', out) ->
  o ∈ out ->
  ddc_Delta_Ct o = Some a ->
  Control_Mean_Delta_Ct o = Some m ->
  exists fc,
    Fold_Change o = Some fc /\
    ((a <= m)%R -> (1 <= fc)%R) /\
    (a = m -> fc = 1%R) /\
    ((m <= a)%R -> (fc <= 1)%R).
Proof.
  intros Hcall Ho Ha Hm.
  destruct (calculate_delta_delta_ct_inv self self' out Hcall)
    as (self0 & data & _ & _ & _ & ->).
  apply results_elem_of in Ho as (row & _ & ->).
  cbn [delta_delta_ct_row ddc_Delta_Ct Control_Mean_Delta_Ct Fold_Change]
    in *.
  rewrite Ha, Hm. cbn [fsub notna fneg pow2 option_map].
  eexists. split; [reflexivity|].
  assert (H0 : Rpower 2 0 = 1%R) by (apply Rpower_O; lra).
  split; [|split].
  - intros Hle. rewrite <- H0. apply Rle_Rpower; lra.
  - intros ->. rewrite <- H0. f_equal. lra.
  - intros Hle. rewrite <- H0. apply Rle_Rpower; lra.
Qed.

Lemma fold_change_direction_witness :
  exists self' out o fc,
    calculate_delta_delta_ct tnf_without_control = Ok (self', out) /\
    o ∈ out /\ ddc_Sample_ID o = "S2" /\ ddc_Target_Gene o = "IL6" /\
    Fold_Change o = Some fc /\ (1 <= fc)%R.
Proof.
  destruct (fold_change_direction tnf_without_control
              (set_delta_delta_ct_data
                 (delta_delta_ct_results
                    (control_means
                       (filter (fun r => dc_Condition r = "Control")
                               tnf_without_control_rows))
                    tnf_without_control_rows)
                 tnf_without_control)
              (delta_delta_ct_results
                 (control_means
                    (filter (fun r => dc_Condition r = "Control")
                            tnf_without_control_rows))
                 tnf_without_control_rows)
              (delta_delta_ct_row (Some ((22 - 18 + 0) / INR 1)%R)
                 (delta_ct_row "S2" "Treated" "1" "IL6" 20 18))
              (20 - 18)%R ((22 - 18 + 0) / INR 1)%R)
    as (fc & Hfc & Hup & _).
  - reflexivity.
  - right. left.
  - reflexivity.
  - reflexivity.
  - eexists _, _, _, fc. split; [reflexivity|].
    split; [right; left|]. split; [reflexivity|]. split; [reflexivity|].
    split; [exact Hfc|]. apply Hup. cbn. lra.
Defined.

(** Of two rows of one gene with defined fold changes, the row with the
    lower or equal Delta_Ct has the higher or equal fold change, and
    equal Delta_Ct give equal fold changes. *)
Theorem fold_change_compares_within_gene (self self' : qPCRAnalyzer)
    (out : list DeltaDeltaCt) (x y : DeltaDeltaCt) (a b fx fy : R) :
  calculate_delta_delta_ct self = Ok (self', out) ->
  x ∈ out -> y ∈ out ->
  ddc_Target_Gene x = ddc_Target_Gene y ->
  ddc_Delta_Ct x = Some a -> ddc_Delta_Ct y = Some b ->
  Fold_Change x = Some fx -> Fold_Change y = Some fy ->
  ((a <= b)%R -> (fy <= fx)%R) /\
  (a = b -> fx = fy).
Proof.
  intros Hcall Hx Hy Hgene Ha Hb Hfx Hfy.
  destruct (calculate_delta_delta_ct_inv self self' out Hcall)
    as (self0 & data & _ & _ & _ & ->).
  apply results_elem_of in Hx as (rx & _ & ->).
  apply results_elem_of in Hy as (ry & _ & ->).
  cbn [delta_delta_ct_row ddc_Delta_Ct ddc_Target_Gene Fold_Change] in *.
  rewrite Hgene, Ha in Hfx. rewrite Hb in Hfy.
  match type of Hfy with
  | context [fsub _ ?c] => destruct c as [m|]
  end; cbn [fsub notna fneg pow2 option_map] in Hfx, Hfy; [|discriminate].
  injection Hfx as <-. injection Hfy as <-.
  split.
  - intros Hle. apply Rle_Rpower; lra.
  - intros ->. reflexivity.
Qed.

Lemma fold_change_compares_within_gene_witness :
  exists self' out x y fx fy,
    calculate_delta_delta_ct tnf_without_control = Ok (self', out) /\
    x ∈ out /\ y ∈ out /\
    Fold_Change x = Some fx /\ Fold_Change y = Some fy /\ (fy <= fx)%R.
Proof.
  eexists _, _,
    (delta_delta_ct_row (Some ((22 - 18 + 0) / INR 1)%R)
       (delta_ct_row "S2" "Treated" "1" "IL6" 20 18)),
    (delta_delta_ct_row (Some ((22 - 18 + 0) / INR 1)%R)
       (delta_ct_row "S1" "Control" "1" "IL6" 22 18)),
    _, _.
  split; [reflexivity|]. split; [right; left|]. split; [left|].
  split; [reflexivity|]. split; [reflexivity|].
  refine (proj1
    (fold_change_compares_within_gene tnf_without_control _ _
       (delta_delta_ct_row (Some ((22 - 18 + 0) / INR 1)%R)
          (delta_ct_row "S2" "Treated" "1" "IL6" 20 18))
       (delta_delta_ct_row (Some ((22 - 18 + 0) / INR 1)%R)
          (delta_ct_row "S1" "Control" "1" "IL6" 22 18))
       (20 - 18)%R (22 - 18)%R _ _ eq_refl _ _ eq_refl eq_refl eq_refl
       eq_refl eq_refl) _).
  - right. left.
  - left.
  - lra.
Defined.

End PipelineProperties.
